(** * The [back_emplace_iterator] adapter and the fold helpers

    A shallow embedding of the two C++ code samples of the site:

    - [emplace_back_iterator.cpp]: the class [ProgressBar], the output
      iterator adapter [back_emplace_iterator] with its helper
      [back_emplacer], [get_tasks], [log_progress] and the two drivers
      [do_tasks_for_loop] and [do_tasks_algorithm];
    - [template_metaprogramming_helpers.cpp]: the fold helpers [all_of],
      [any_of] and [none_of] over a template parameter pack.

    Objects live in stores indexed by addresses: one store for the
    containers, one for the adapter objects, one for the objects that are
    passed around as constructor arguments.  A C++ reference is an address;
    an expression that denotes an object also has a value category, and the
    forwarding machinery of the adapter ([Tuple &&], [std::forward],
    [std::apply], [std::get], [auto &&]) is modelled as the functions on
    value categories and reference qualifiers that the language rules
    prescribe. *)

From Stdlib Require Import ZArith Ascii String List Lia.
From stdpp Require Import base gmap list strings pretty.

Abbreviation loc := positive (only parsing).

(** ** Value categories and reference collapsing *)

Module Cpp.

(** The category of an expression. *)
Inductive value_category := lvalue | xvalue | prvalue.

(** The reference qualifier of a declared type: [T], [T &] or [T &&]. *)
Inductive ref_qual := non_ref | lvalue_ref | rvalue_ref.

#[export] Instance value_category_eq_dec : EqDecision value_category.
Proof. solve_decision. Defined.
#[export] Instance ref_qual_eq_dec : EqDecision ref_qual.
Proof. solve_decision. Defined.

(** Reference collapsing: the qualifier of [Q &&] and of [Q &]. *)
Definition add_rvalue_ref (q : ref_qual) : ref_qual :=
  match q with
  | non_ref => rvalue_ref
  | lvalue_ref => lvalue_ref
  | rvalue_ref => rvalue_ref
  end.

Definition add_lvalue_ref (q : ref_qual) : ref_qual := lvalue_ref.

(** The category of a call to a function whose return type has
    qualifier [q]. *)
Definition category_of_call (q : ref_qual) : value_category :=
  match q with
  | non_ref => prvalue
  | lvalue_ref => lvalue
  | rvalue_ref => xvalue
  end.

(** Deduction of [P] for a parameter declared [P &&x] (a forwarding
    reference) from the category of the argument: an lvalue of type [U]
    deduces [P = U &], an rvalue deduces [P = U]. *)
Definition deduce_forwarding (c : value_category) : ref_qual :=
  match c with
  | lvalue => lvalue_ref
  | xvalue | prvalue => non_ref
  end.

(** [decltype(x)] for a parameter declared [auto &&x]: the declared type
    [P &&] after collapsing. *)
Definition decltype_forwarding (c : value_category) : ref_qual :=
  add_rvalue_ref (deduce_forwarding c).

(** [std::forward<P>(x)] is a call that returns [P &&]. *)
Definition std_forward (P : ref_qual) : value_category :=
  category_of_call (add_rvalue_ref P).

(** [std::get<I>(t)] returns [E &] when [t] is an lvalue tuple and [E &&]
    when it is an rvalue tuple, [E] being the declared type of the I-th
    element. *)
Definition std_get (tc : value_category) (E : ref_qual) : value_category :=
  match tc with
  | lvalue => category_of_call (add_lvalue_ref E)
  | xvalue | prvalue => category_of_call (add_rvalue_ref E)
  end.

(** An rvalue can be moved from. *)
Definition is_rvalue (c : value_category) : bool :=
  match c with lvalue => false | xvalue | prvalue => true end.

End Cpp.
Import Cpp.

(** ** Argument bundles *)

(** An element of a [std::tuple<Types...>]: its declared qualifier and the
    address of the object it denotes.  An element of non-reference type is
    a subobject of the tuple; an element of reference type is the address
    of an object outside the tuple. *)
Record tuple_element := TupleElement { te_type : ref_qual; te_loc : loc }.

Definition tuple := list tuple_element.

(** A reference handed to a function: a category and the address of the
    referent. *)
Record arg_ref := ArgRef { ar_cat : value_category; ar_loc : loc }.

(** [std::apply(f, t)] with [Tuple &&t]: calls
    [f(std::get<I>(std::forward<Tuple>(t))...)] for [I = 0, 1, ...]. *)
Definition std_apply {R : Type} (f : list arg_ref → R)
    (tc : value_category) (t : tuple) : R :=
  let Tuple := deduce_forwarding tc in
  f (map (λ e, ArgRef (std_get (std_forward Tuple) (te_type e)) (te_loc e)) t).

(** [std::forward<decltype(args)>(args)...] for a pack declared
    [auto &&...args]. *)
Definition forward_auto_pack (args : list arg_ref) : list arg_ref :=
  map (λ a, ArgRef (std_forward (decltype_forwarding (ar_cat a))) (ar_loc a)) args.

(** [std::forward<Args>(args)...] for a pack declared [Args &&...args]. *)
Definition forward_pack (args : list arg_ref) : list arg_ref :=
  map (λ a, ArgRef (std_forward (deduce_forwarding (ar_cat a))) (ar_loc a)) args.

(** The adapter object: one data member, the address of the container. *)
Record back_emplace_iterator := BackEmplaceIterator { m_container : loc }.

#[export] Instance back_emplace_iterator_eq_dec : EqDecision back_emplace_iterator.
Proof. solve_decision. Defined.

(** ** The adapter over an arbitrary element type *)

Section Adapter.

(** [Val]: the objects passed as constructor arguments; [Elem]: the
    container's [value_type]; [Err]: what its constructor may throw. *)
Context {Val Elem Err : Type}.

(** The argument objects, with counters of the copy and move
    constructions performed on them. *)
Record memory := Memory {
  objects : gmap loc Val;
  copies : nat;
  moves : nat
}.

(** What a call of the element type's constructor does. *)
Inductive construction :=
| constructed (x : Elem) (m : memory)
| raised (e : Err) (m : memory)
| no_behaviour.

(** The constructor [Elem(args...)]: it receives the forwarded references
    and acts on the argument objects only.  [no_behaviour] stands for a
    call the language gives no meaning to (a dangling argument, or
    arguments no constructor accepts). *)
Variable construct : list arg_ref → memory → construction.

(** The program state: the containers and the adapter objects by
    address, the argument objects, and the number of times the constructor
    of the element type has been run. *)
Record state := State {
  containers : gmap loc (list Elem);
  adapters : gmap loc back_emplace_iterator;
  mem : memory;
  ctor_calls : nat
}.

Definition set_containers (f : gmap loc (list Elem) → gmap loc (list Elem))
    (s : state) : state :=
  State (f (containers s)) (adapters s) (mem s) (ctor_calls s).

Definition set_adapters
    (f : gmap loc back_emplace_iterator → gmap loc back_emplace_iterator)
    (s : state) : state :=
  State (containers s) (f (adapters s)) (mem s) (ctor_calls s).

Definition set_mem (m : memory) (s : state) : state :=
  State (containers s) (adapters s) m (ctor_calls s).

Definition count_ctor_call (s : state) : state :=
  State (containers s) (adapters s) (mem s) (S (ctor_calls s)).

(** The outcome of a call: normal return, an exception in flight, or
    undefined behaviour (a dangling [this] or container pointer). *)
Inductive result (A : Type) :=
| Returned (a : A) (s : state)
| Thrown (e : Err) (s : state)
| Undefined.
#[local] Arguments Returned {A} a s.
#[local] Arguments Thrown {A} e s.
#[local] Arguments Undefined {A}.

Definition bind {A B : Type} (r : result A) (k : A → state → result B)
    : result B :=
  match r with
  | Returned a s => k a s
  | Thrown e s => Thrown e s
  | Undefined => Undefined
  end.

(** The state an outcome leaves behind. *)
Definition final_state {A : Type} (r : result A) : option state :=
  match r with
  | Returned _ s => Some s
  | Thrown _ s => Some s
  | Undefined => None
  end.

(** [Container::emplace_back(Args &&...args)] of a sequence container
    that never relocates its elements ([std::deque]): the new element is
    constructed in its final place from [std::forward<Args>(args)...];
    if the constructor throws, the container is as before. *)
Definition emplace_back (c : loc) (args : list arg_ref) (s : state)
    : result unit :=
  match containers s !! c with
  | None => Undefined
  | Some elems =>
      match construct (forward_pack args) (mem s) with
      | no_behaviour => Undefined
      | raised e m' => Thrown e (count_ctor_call (set_mem m' s))
      | constructed x m' =>
          Returned tt
            (count_ctor_call (set_mem m' (set_containers <[c := elems ++ [x]]> s)))
      end
  end.

(** [explicit back_emplace_iterator(Container &container)], run on the
    storage at [this]. *)
Definition back_emplace_iterator_ctor (this container : loc) (s : state)
    : result unit :=
  Returned tt (set_adapters <[this := BackEmplaceIterator container]> s).

(** [operator*()]: [return *this;] as a reference. *)
Definition op_deref (this : loc) (s : state) : result loc :=
  Returned this s.

(** [operator++()]: [return *this;] as a reference. *)
Definition op_preinc (this : loc) (s : state) : result loc :=
  Returned this s.

(** [operator++(int)]: [return *this;] by value, a copy of the object. *)
Definition op_postinc (this : loc) (s : state)
    : result back_emplace_iterator :=
  match adapters s !! this with
  | None => Undefined
  | Some it => Returned it s
  end.

(** The closure [[this](auto &&...args) { m_container->emplace_back(
    std::forward<decltype(args)>(args)...); }]. *)
Definition assign_lambda (this : loc) (args : list arg_ref) (s : state)
    : result unit :=
  match adapters s !! this with
  | None => Undefined
  | Some it => emplace_back (m_container it) (forward_auto_pack args) s
  end.

(** [operator=(Tuple &&tuple_args)]: [tc] is the category of the
    argument expression. *)
Definition op_assign (this : loc) (tc : value_category) (tuple_args : tuple)
    (s : state) : result loc :=
  let Tuple := deduce_forwarding tc in
  bind (std_apply (assign_lambda this) (std_forward Tuple) tuple_args s)
       (λ _ s', Returned this s').

(** [back_emplacer(c)]: [return back_emplace_iterator<Container>{ c };]. *)
Definition back_emplacer (c : loc) : back_emplace_iterator :=
  BackEmplaceIterator c.

(** *** Temporaries *)

(** The destructor of a tuple releases the elements it owns, the ones of
    non-reference type. *)
Definition destroy_tuple (t : tuple) (m : memory) : memory :=
  Memory
    (foldr (λ e o, match te_type e with
                   | non_ref => delete (te_loc e) o
                   | lvalue_ref | rvalue_ref => o
                   end) (objects m) t)
    (copies m) (moves m).

(** A bundle that is a prvalue is a temporary: it is destroyed at the end
    of the full-expression that created it. *)
Definition release (tc : value_category) (t : tuple) (m : memory) : memory :=
  match tc with
  | prvalue => destroy_tuple t m
  | lvalue | xvalue => m
  end.

Definition end_full_expression (tc : value_category) (t : tuple) (s : state)
    : state :=
  set_mem (release tc t (mem s)) s.

(** *** [std::transform] into the adapter *)

(** The loop of [std::transform(first1, last1, d_first, unary_op)]:
    [for (; first1 != last1; ++d_first, ++first1)
       *d_first = unary_op( *first1 );]
    with the output iterator object at address [d_first].  [unary_op]
    yields the bundle, the category of the call expression and the
    argument objects as it leaves them. *)
Fixpoint transform_loop {A : Type}
    (unary_op : A → memory → option (value_category * tuple * memory))
    (xs : list A) (d_first : loc) (s : state) : result unit :=
  match xs with
  | [] => Returned tt s
  | x :: rest =>
      match unary_op x (mem s) with
      | None => Undefined
      | Some (tc, t, m1) =>
          match bind (op_deref d_first (set_mem m1 s))
                     (λ it s', op_assign it tc t s') with
          | Undefined => Undefined
          | Thrown e s' => Thrown e (end_full_expression tc t s')
          | Returned _ s' =>
              bind (op_preinc d_first (end_full_expression tc t s'))
                   (λ _ s'', transform_loop unary_op rest d_first s'')
          end
      end
  end.

(** [std::transform]: the parameter [d_first] is an object of its own,
    initialised from the argument and returned by value. *)
Definition std_transform {A : Type}
    (unary_op : A → memory → option (value_category * tuple * memory))
    (xs : list A) (d_first : back_emplace_iterator) (s : state)
    : result back_emplace_iterator :=
  let d := fresh (dom (adapters s)) in
  match transform_loop unary_op xs d (set_adapters <[d := d_first]> s) with
  | Undefined => Undefined
  | Thrown e s' => Thrown e (set_adapters (delete d) s')
  | Returned _ s' =>
      match adapters s' !! d with
      | None => Undefined
      | Some it => Returned it (set_adapters (delete d) s')
      end
  end.

(** *** The contract, in the words of the specification *)

(** How an element of a bundle is supplied: every element of a named
    bundle is a named value; in a temporary bundle an element that refers
    to external storage ([T &]) is a named value and any other element is
    a movable temporary. *)
Definition supplied_category (tc : value_category) (E : ref_qual)
    : value_category :=
  match tc, E with
  | lvalue, _ => lvalue
  | (xvalue | prvalue), lvalue_ref => lvalue
  | (xvalue | prvalue), (non_ref | rvalue_ref) => xvalue
  end.

(** The arguments of a bundle: its elements in their declared order, each
    as it was supplied. *)
Definition ctor_args (tc : value_category) (t : tuple) : list arg_ref :=
  map (λ e, ArgRef (supplied_category tc (te_type e)) (te_loc e)) t.

(** The elements built from a sequence of inputs, one after the other. *)
Fixpoint elements_in_order {A : Type}
    (unary_op : A → memory → option (value_category * tuple * memory))
    (xs : list A) (m : memory) : option (list Elem * memory) :=
  match xs with
  | [] => Some ([], m)
  | x :: rest =>
      match unary_op x m with
      | None => None
      | Some (tc, t, m1) =>
          match construct (ctor_args tc t) m1 with
          | constructed e m2 =>
              match elements_in_order unary_op rest (release tc t m2) with
              | Some (es, m') => Some (e :: es, m')
              | None => None
              end
          | raised _ _ | no_behaviour => None
          end
      end
  end.

(** What an assignment through the adapter at [this], bound to the
    container at [c] holding [elems], makes of the outcome of the element's
    constructor. *)
Definition emplace_outcome (this c : loc) (elems : list Elem) (s : state)
    (r : construction) : result loc :=
  match r with
  | no_behaviour => Undefined
  | raised e m' => Thrown e (count_ctor_call (set_mem m' s))
  | constructed x m' =>
      Returned this
        (count_ctor_call (set_mem m' (set_containers <[c := elems ++ [x]]> s)))
  end.

(** The calls that are not assignments, and what they return: a reference
    to an adapter object or a copy of one. *)
Inductive noop_call := call_deref | call_preinc | call_postinc.

Inductive noop_value :=
| reference_to (l : loc)
| copy_of (it : back_emplace_iterator).

Definition run_noop (this : loc) (o : noop_call) (s : state)
    : result noop_value :=
  match o with
  | call_deref => bind (op_deref this s) (λ r s', Returned (reference_to r) s')
  | call_preinc => bind (op_preinc this s) (λ r s', Returned (reference_to r) s')
  | call_postinc => bind (op_postinc this s) (λ v s', Returned (copy_of v) s')
  end.

Fixpoint run_noops (this : loc) (os : list noop_call) (s : state)
    : result (list noop_value) :=
  match os with
  | [] => Returned [] s
  | o :: rest =>
      bind (run_noop this o s) (λ v s',
      bind (run_noops this rest s') (λ vs s'', Returned (v :: vs) s''))
  end.

(** Any call on an adapter object. *)
Inductive adapter_call :=
| call_noop (o : noop_call)
| call_assign (tc : value_category) (t : tuple).

Definition run_call (this : loc) (call : adapter_call) (s : state)
    : result noop_value :=
  match call with
  | call_noop o => run_noop this o s
  | call_assign tc t =>
      bind (op_assign this tc t s) (λ r s', Returned (reference_to r) s')
  end.

(** A sequence of calls on the adapter object at [this]; an exception ends
    it. *)
Fixpoint run_calls (this : loc) (calls : list adapter_call) (s : state)
    : result (list noop_value) :=
  match calls with
  | [] => Returned [] s
  | call :: rest =>
      bind (run_call this call s) (λ v s',
      bind (run_calls this rest s') (λ vs s'', Returned (v :: vs) s''))
  end.

(** What a call that is not an assignment is to return, the object at
    [this] being [it]. *)
Definition noop_returns (this : loc) (it : back_emplace_iterator)
    (o : noop_call) : noop_value :=
  match o with
  | call_deref | call_preinc => reference_to this
  | call_postinc => copy_of it
  end.

(** The adapter object at [this] refers to the container at [c]. *)
Definition bound_to (this c : loc) (s : state) : Prop :=
  adapters s !! this = Some (BackEmplaceIterator c).

(** The footprint of calls on an adapter bound to the container at [c]:
    the adapter objects are as before, no container appears or
    disappears, the other containers are as before, and the bound one
    keeps the elements it had, in place. *)
Definition call_frame (c : loc) (s s' : state) : Prop :=
  adapters s' = adapters s
  ∧ dom (containers s') = dom (containers s)
  ∧ (∀ c', c' ≠ c → containers s' !! c' = containers s !! c')
  ∧ (∀ elems, containers s !! c = Some elems →
       ∃ new, containers s' !! c = Some (elems ++ new)).

End Adapter.

Arguments Returned {Val Elem Err A} a s.
Arguments Thrown {Val Elem Err A} e s.
Arguments Undefined {Val Elem Err A}.
Arguments constructed {Val Elem Err} x m.
Arguments raised {Val Elem Err} e m.
Arguments no_behaviour {Val Elem Err}.
Arguments memory : clear implicits.
Arguments state : clear implicits.
Arguments result : clear implicits.
Arguments construction : clear implicits.

(** ** [ProgressBar] and the drivers *)

(** The objects of the sample: pointers to stream buffers, strings, and
    the stream buffers themselves with the text written to them. *)
Inductive value :=
| VPointer (p : loc)
| VString (str : string)
| VStreambuf (written : string).

(** [ProgressBar]: [m_out] is the stream buffer the [std::ostream] member
    writes to.  [m_progress] is a [double] that only takes the values
    0, 10, 20, ..., which are exact; it is kept as an integer. *)
Record ProgressBar := MkProgressBar {
  m_out : loc;
  m_prefix : string;
  m_progress : Z
}.

#[export] Instance ProgressBar_eq_dec : EqDecision ProgressBar.
Proof. solve_decision. Defined.

Abbreviation pb_memory := (memory value) (only parsing).
Abbreviation pb_state := (state value ProgressBar) (only parsing).
Abbreviation pb_result := (result value ProgressBar Empty_set) (only parsing).

Definition alloc (l : loc) (v : value) (m : pb_memory) : pb_memory :=
  Memory (<[l := v]> (objects m)) (copies m) (moves m).

Definition free (l : loc) (m : pb_memory) : pb_memory :=
  Memory (delete l (objects m)) (copies m) (moves m).

(** Initialisation of a new object from a forwarded reference.  A pointer
    is copied bit for bit.  A [std::string] is copy-constructed from an
    lvalue, which leaves the source as it is, and move-constructed from an
    rvalue, which leaves the source empty. *)
Definition copy_or_move (a : arg_ref) (m : pb_memory)
    : option (value * pb_memory) :=
  match objects m !! ar_loc a with
  | Some (VPointer p) => Some (VPointer p, m)
  | Some (VString str) =>
      if is_rvalue (ar_cat a)
      then Some (VString str,
                 Memory (<[ar_loc a := VString ""]> (objects m))
                        (copies m) (S (moves m)))
      else Some (VString str, Memory (objects m) (S (copies m)) (moves m))
  | Some (VStreambuf _) | None => None
  end.

(** [ProgressBar(std::streambuf *buffer, std::string prefix)
      : m_out{ buffer }, m_prefix{ std::move(prefix) } {}]
    Both parameters are taken by value; [prefix] is then moved into the
    member.  The constructor throws nothing. *)
Definition ProgressBar_ctor (args : list arg_ref) (m : pb_memory)
    : construction value ProgressBar Empty_set :=
  match args with
  | [a_buffer; a_prefix] =>
      match copy_or_move a_buffer m with
      | Some (VPointer buffer, m1) =>
          match copy_or_move a_prefix m1 with
          | Some (VString prefix, m2) =>
              constructed (MkProgressBar buffer prefix 0)
                (Memory (objects m2) (copies m2) (S (moves m2)))
          | _ => no_behaviour
          end
      | _ => no_behaviour
      end
  | _ => no_behaviour
  end.

(** [void tick() { m_progress += 10; }] *)
Definition tick (bar : ProgressBar) : ProgressBar :=
  MkProgressBar (m_out bar) (m_prefix bar) (m_progress bar + 10).

Definition newline : string := String "010"%char EmptyString.

(** [m_out << m_prefix << '[' << m_progress << ']' << ' ' << data << '\n';] *)
Definition write_progress (data : string) (bar : ProgressBar) (m : pb_memory)
    : option pb_memory :=
  match objects m !! m_out bar with
  | Some (VStreambuf written) =>
      Some (alloc (m_out bar)
              (VStreambuf (written +:+ m_prefix bar +:+ "[" +:+
                           pretty (m_progress bar) +:+ "]" +:+ " " +:+
                           data +:+ newline)) m)
  | _ => None
  end.

(** [std::for_each(begin(bars), end(bars),
      [](auto &bar) { bar.tick(); bar.write_progress("step"); });]
    over the elements in place. *)
Fixpoint log_each (bars : list ProgressBar) (m : pb_memory)
    : option (list ProgressBar * pb_memory) :=
  match bars with
  | [] => Some ([], m)
  | bar :: rest =>
      match write_progress "step" (tick bar) m with
      | None => None
      | Some m1 =>
          match log_each rest m1 with
          | None => None
          | Some (rest', m2) => Some (tick bar :: rest', m2)
          end
      end
  end.

Definition log_progress (bars : loc) (s : pb_state) : pb_result unit :=
  match containers s !! bars with
  | None => Undefined
  | Some elems =>
      match log_each elems (mem s) with
      | None => Undefined
      | Some (elems', m') =>
          Returned tt (set_mem m' (set_containers <[bars := elems']> s))
      end
  end.

(** *** [get_tasks] *)

(** [INT_MAX], the largest value the counter of the generator can hold:
    an [int], of 32 bits. *)
Definition INT_MAX : Z := (2 ^ 31 - 1)%Z.

(** [std::to_string(int)]: decimal digits, with a minus sign if negative. *)
Definition to_string (i : Z) : string := pretty i.

(** What the library and the machine fix for [std::vector<std::string>]:
    its [max_size()], and whether the allocator provides storage for a
    given number of strings. *)
Record implementation := Implementation {
  max_size : N;
  can_allocate : N → bool
}.

(** What [reserve] throws. *)
Inductive exception := length_error | bad_alloc.

(** [tasks.reserve(new_cap)] on the vector [tasks], which is empty:
    [std::length_error] if [new_cap > max_size()]; otherwise storage is
    allocated if [new_cap] exceeds the capacity, and the allocator's
    [std::bad_alloc] comes through. *)
Definition reserve (impl : implementation) (new_cap : N) : option exception :=
  if (max_size impl <? new_cap)%N then Some length_error
  else if (new_cap =? 0)%N then None
  else if can_allocate impl new_cap then None
  else Some bad_alloc.

(** [std::generate_n(std::back_inserter(out), count, g)]: [count] times,
    the next value of the generator is pushed at the back.  A call of the
    generator may have no defined behaviour, and then neither has the
    algorithm. *)
Fixpoint generate_n {S A : Type} (count : nat) (g : S → option (A * S))
    (st : S) (out : list A) : option (list A) :=
  match count with
  | O => Some out
  | S k =>
      match g st with
      | None => None
      | Some (v, st') => generate_n k g st' (out ++ [v])
      end
  end.

(** [[i = 0]() mutable { return "task" + std::to_string(i++); }]: the state of
    the closure is its counter, an [int].  [i++] on [INT_MAX] is a signed
    overflow, which has no defined behaviour. *)
Definition task_generator (i : Z) : option (string * Z) :=
  if (i <? INT_MAX)%Z then Some ("task" +:+ to_string i, (i + 1)%Z)
  else None.

(** How a call of [get_tasks] ends: with the vector, with an exception,
    or without defined behaviour. *)
Inductive tasks_result :=
| tasks_returned (tasks : list string)
| tasks_thrown (e : exception)
| tasks_undefined.

(** [get_tasks(num_of_tasks)], the count being a [size_t]. *)
Definition get_tasks (impl : implementation) (num_of_tasks : N)
    : tasks_result :=
  match reserve impl num_of_tasks with
  | Some e => tasks_thrown e
  | None =>
      match generate_n (N.to_nat num_of_tasks) task_generator 0%Z [] with
      | Some tasks => tasks_returned tasks
      | None => tasks_undefined
      end
  end.

(** The names the tasks are to have: ["task"] followed by the index in
    decimal, for the indices from 0 on. *)
Definition task_names (n : nat) : list string :=
  map (λ i, "task" +:+ to_string (Z.of_nat i)) (seq 0 n).

(** An implementation to try [get_tasks] on: [max_size()] as for 32-byte
    strings and a 63-bit [PTRDIFF_MAX], and an allocator that provides up
    to [2 ^ 32] strings. *)
Definition sample_implementation : implementation :=
  Implementation 288230376151711743 (λ n, (n <=? 2 ^ 32)%N).

(** *** The two ways of filling the deque *)

(** [std::cout.rdbuf()]: the address of the stream buffer of [std::cout]. *)
Definition cout_rdbuf : loc := 1%positive.

(** The element that [ProgressBar(std::cout.rdbuf(), task)] makes. *)
Definition bar_of (task : string) : ProgressBar :=
  MkProgressBar cout_rdbuf task 0.

(** The vector returned by [get_tasks], as a local variable: its strings
    are objects of their own. *)
Fixpoint alloc_vector (strs : list string) (m : pb_memory)
    : list loc * pb_memory :=
  match strs with
  | [] => ([], m)
  | str :: rest =>
      let l := fresh (dom (objects m)) in
      let '(ls, m') := alloc_vector rest (alloc l (VString str) m) in
      (l :: ls, m')
  end.

(** [for (const auto &task : tasks)
      { bars.emplace_back(std::cout.rdbuf(), task); }]
    The pointer returned by [rdbuf()] is a temporary of the call. *)
Fixpoint emplace_each (tasks : list loc) (bars : loc) (s : pb_state)
    : pb_result unit :=
  match tasks with
  | [] => Returned tt s
  | task :: rest =>
      let p := fresh (dom (objects (mem s))) in
      let s0 := set_mem (alloc p (VPointer cout_rdbuf) (mem s)) s in
      match emplace_back ProgressBar_ctor bars
              [ArgRef prvalue p; ArgRef lvalue task] s0 with
      | Undefined => Undefined
      | Thrown e s1 => Thrown e (set_mem (free p (mem s1)) s1)
      | Returned _ s1 => emplace_each rest bars (set_mem (free p (mem s1)) s1)
      end
  end.

(** [std::make_tuple(Types &&...args)]: a tuple of decayed types, each
    element initialised from [std::forward<Types>(args)]. *)
Fixpoint make_tuple_elements (args : list arg_ref) (m : pb_memory)
    : option (tuple * pb_memory) :=
  match args with
  | [] => Some ([], m)
  | a :: rest =>
      match copy_or_move a m with
      | None => None
      | Some (v, m1) =>
          let l := fresh (dom (objects m1)) in
          match make_tuple_elements rest (alloc l v m1) with
          | None => None
          | Some (t, m2) => Some (TupleElement non_ref l :: t, m2)
          end
      end
  end.

Definition make_tuple (args : list arg_ref) (m : pb_memory)
    : option (tuple * pb_memory) :=
  make_tuple_elements (forward_pack args) m.

(** [[](const auto &task) { return std::make_tuple(std::cout.rdbuf(), task); }]:
    the call is a prvalue. *)
Definition task_to_bundle (task : loc) (m : pb_memory)
    : option (value_category * tuple * pb_memory) :=
  let p := fresh (dom (objects m)) in
  match make_tuple [ArgRef prvalue p; ArgRef lvalue task]
          (alloc p (VPointer cout_rdbuf) m) with
  | None => None
  | Some (t, m1) => Some (prvalue, t, free p m1)
  end.

(** The locals [tasks], holding [names], and [bars] of a driver, and what
    filling [bars] leaves. *)
Definition with_locals (names : list string)
    (fill : list loc → loc → pb_state → pb_result unit) (s : pb_state)
    : pb_result (loc * list loc) :=
  let '(tasks, m) := alloc_vector names (mem s) in
  let bars := fresh (dom (containers s)) in
  bind (fill tasks bars (set_mem m (set_containers <[bars := []]> s)))
       (λ _ s', Returned (bars, tasks) s').

(** The end of a driver: [log_progress(bars);], then the locals go. *)
Definition finish (locals : loc * list loc) (s : pb_state) : pb_result unit :=
  let '(bars, tasks) := locals in
  bind (log_progress bars s) (λ _ s',
    Returned tt
      (set_mem (Memory (foldr delete (objects (mem s')) tasks)
                       (copies (mem s')) (moves (mem s')))
               (set_containers (delete bars) s'))).

(** [std::transform(cbegin(tasks), cend(tasks), back_emplacer(bars),
    ...);], the iterator it returns being dropped. *)
Definition transform_each (tasks : list loc) (bars : loc) (s : pb_state)
    : pb_result unit :=
  bind (std_transform ProgressBar_ctor task_to_bundle tasks
          (back_emplacer bars) s)
       (λ _ s', Returned tt s').

(** The outcome of a driver: what [reserve] throws in [get_tasks] leaves
    the driver. *)
Abbreviation driver_result := (result value ProgressBar exception)
  (only parsing).

(** The construction of [ProgressBar]s throws nothing. *)
Definition cannot_throw {A : Type} (r : pb_result A) : driver_result A :=
  match r with
  | Returned a s => Returned a s
  | Thrown e _ => match e with end
  | Undefined => Undefined
  end.

(** [auto tasks = get_tasks(num_of_tasks);] followed by the rest of the
    body of a driver. *)
Definition after_get_tasks {A : Type} (impl : implementation)
    (num_of_tasks : N) (body : list string → pb_state → pb_result A)
    (s : pb_state) : driver_result A :=
  match get_tasks impl num_of_tasks with
  | tasks_returned names => cannot_throw (body names s)
  | tasks_thrown e => Thrown e s
  | tasks_undefined => Undefined
  end.

(** [do_tasks_for_loop], up to the call of [log_progress]. *)
Definition fill_for_loop (impl : implementation) (num_of_tasks : N)
    (s : pb_state) : driver_result (loc * list loc) :=
  after_get_tasks impl num_of_tasks
    (λ names, with_locals names emplace_each) s.

(** [do_tasks_algorithm], up to the call of [log_progress]. *)
Definition fill_algorithm (impl : implementation) (num_of_tasks : N)
    (s : pb_state) : driver_result (loc * list loc) :=
  after_get_tasks impl num_of_tasks
    (λ names, with_locals names transform_each) s.

Definition do_tasks_for_loop (impl : implementation) (num_of_tasks : N)
    (s : pb_state) : driver_result unit :=
  after_get_tasks impl num_of_tasks
    (λ names s0, bind (with_locals names emplace_each s0) finish) s.

Definition do_tasks_algorithm (impl : implementation) (num_of_tasks : N)
    (s : pb_state) : driver_result unit :=
  after_get_tasks impl num_of_tasks
    (λ names s0, bind (with_locals names transform_each s0) finish) s.

(** Two outcomes of a driver that agree on everything but the number of
    string moves made on the way. *)
Definition same_outcome (r1 r2 : driver_result unit) : Prop :=
  match r1, r2 with
  | Returned _ s1, Returned _ s2 =>
      containers s1 = containers s2
      ∧ adapters s1 = adapters s2
      ∧ objects (mem s1) = objects (mem s2)
      ∧ copies (mem s1) = copies (mem s2)
      ∧ ctor_calls s1 = ctor_calls s2
  | Thrown e1 s1, Thrown e2 s2 => e1 = e2 ∧ s1 = s2
  | Undefined, Undefined => True
  | _, _ => False
  end.

(** A state in which only [std::cout]'s buffer exists, nothing written. *)
Definition initial_state : pb_state :=
  State (∅ : gmap loc (list ProgressBar)) (∅ : gmap loc back_emplace_iterator)
        (Memory ({[cout_rdbuf := VStreambuf ""]} : gmap loc value) 0 0) 0.

(** A state to try the adapter on: an empty deque at address 1, an
    adapter object at address 1 bound to it, and, next to the buffer of
    [std::cout], a pointer to it at address 2 and strings at addresses 3
    and 4. *)
Definition sample_state : pb_state :=
  State ({[1%positive := []]} : gmap loc (list ProgressBar))
        ({[1%positive := BackEmplaceIterator 1]} : gmap loc back_emplace_iterator)
        (Memory (<[4%positive := VString "task1"]>
                   (<[3%positive := VString "task0"]>
                      (<[2%positive := VPointer cout_rdbuf]>
                         {[cout_rdbuf := VStreambuf ""]})) : gmap loc value)
                0 0) 0.

(** A bundle that owns its two elements, and one that refers to them. *)
Definition owning_bundle : tuple :=
  [TupleElement non_ref 2; TupleElement non_ref 3].

Definition referring_bundle : tuple :=
  [TupleElement lvalue_ref 2; TupleElement lvalue_ref 3].

(** An element type whose constructor rejects every argument list. *)
Definition throwing_ctor (args : list arg_ref) (m : pb_memory)
    : construction value ProgressBar string :=
  raised "invalid argument" m.

(** ** What the member templates require at compile time *)

Module Instantiation.

(** The outcome of instantiating a template for given arguments. *)
Inductive compilation := well_formed | ill_formed.

Section Members.

(** [Ty]: the types of the program. *)
Context {Ty : Type}.

(** What the members of [back_emplace_iterator<Container>] may ask of
    [Container]: whether it has a member [emplace_back], from which
    argument types its [value_type] can be constructed, and whether
    [value_type] meets what its [emplace_back] asks for besides that
    construction, as [std::vector] asks for a type that is
    MoveInsertable. *)
Record container_type := ContainerType {
  has_emplace_back : bool;
  is_constructible : list Ty → bool;
  meets_further_requirements : bool
}.

(** The class template has no requires-clause and no static assertion,
    and the body of its constructor only takes the address of its
    argument. *)
Definition instantiate_constructor (C : container_type) : compilation :=
  well_formed.

(** [operator*], [operator++] and [operator++(int)] only name [*this]. *)
Definition instantiate_noop (C : container_type) : compilation :=
  well_formed.

(** [operator=<Tuple>] is instantiated when it is called; its body calls
    [m_container->emplace_back] with the elements of the tuple, and
    [emplace_back] constructs a [value_type] from them. *)
Definition instantiate_assign (C : container_type) (Types : list Ty)
    : compilation :=
  if has_emplace_back C
  then if is_constructible C Types && meets_further_requirements C
       then well_formed else ill_formed
  else ill_formed.

End Members.

(** The types of the sample. *)
Inductive sample_type := streambuf_pointer | std_string | other.

(** A [ProgressBar] is made from a stream buffer pointer and a string. *)
Definition ProgressBar_from (Types : list sample_type) : bool :=
  match Types with
  | [streambuf_pointer; std_string] => true
  | _ => false
  end.

(** [std::deque<ProgressBar>]: its [emplace_back] asks for no more than
    the construction of the element. *)
Definition deque_of_ProgressBar : container_type :=
  ContainerType true ProgressBar_from true.

(** [std::vector<ProgressBar>]: its [emplace_back] moves the elements
    when it reallocates, and a [ProgressBar] is neither copyable nor
    movable. *)
Definition vector_of_ProgressBar : container_type :=
  ContainerType true ProgressBar_from false.

(** A container with no [emplace_back], such as [std::array]. *)
Definition no_emplace_back : @container_type sample_type :=
  ContainerType false (λ _, false) true.

(** The type of an object of the sample. *)
Definition type_of (v : value) : sample_type :=
  match v with
  | VPointer _ => streambuf_pointer
  | VString _ => std_string
  | VStreambuf _ => other
  end.

End Instantiation.

(** ** Fold expressions over a parameter pack *)

Module Folds.

Section Helpers.

(** [Ty]: the types a pack may hold.  [Predicate<T>()] converts to [bool]
    at compile time. *)
Context {Ty : Type}.
Variable Predicate : Ty → bool.

(** [sizeof...(Args)] *)
Definition count (Args : list Ty) : nat := length Args.

(** [(... + Predicate<Args>())]: a unary left fold over [+], which has no
    value for an empty pack. *)
Definition count_if (Args : list Ty) : option nat :=
  match Args with
  | [] => None
  | T :: rest =>
      Some (fold_left (λ acc U, acc + Nat.b2n (Predicate U))
                      rest (Nat.b2n (Predicate T)))
  end.

(** [(Predicate<Args>() && ...)]: a unary right fold over [&&], whose
    value for an empty pack is [true]. *)
Fixpoint all_of (Args : list Ty) : bool :=
  match Args with
  | [] => true
  | [T] => Predicate T
  | T :: rest => Predicate T && all_of rest
  end.

(** [(Predicate<Args>() || ...)]: a unary right fold over [||], whose
    value for an empty pack is [false]. *)
Fixpoint any_of (Args : list Ty) : bool :=
  match Args with
  | [] => false
  | [T] => Predicate T
  | T :: rest => Predicate T || any_of rest
  end.

(** [return !any_of<Predicate, Args...>();] *)
Definition none_of (Args : list Ty) : bool := negb (any_of Args).

End Helpers.

(** The types used in [main], and [is_signed_type]. *)
Inductive arithmetic_type := t_int | t_unsigned_int | t_float | t_double | t_size_t.

Definition is_signed_type (T : arithmetic_type) : bool :=
  match T with
  | t_int | t_float | t_double => true
  | t_unsigned_int | t_size_t => false
  end.

(** The value returned by [main]. *)
Definition main_result : option nat :=
  match count_if is_signed_type [t_int; t_unsigned_int; t_double] with
  | None => None
  | Some signed =>
      Some (count [t_int; t_int; t_float] + signed
            + Nat.b2n (all_of is_signed_type [t_int; t_double])
            + Nat.b2n (any_of is_signed_type [t_int; t_size_t])
            + Nat.b2n (none_of is_signed_type [t_unsigned_int; t_size_t]))
  end.

End Folds.

(** ** The rest of the samples *)

(** The text of one line of [write_progress]. *)
Definition progress_line (data : string) (bar : ProgressBar) : string :=
  m_prefix bar +:+ "[" +:+ pretty (m_progress bar) +:+ "]" +:+ " " +:+
  data +:+ newline.

(** What [log_progress] prints for a sequence of bars: one line each, in
    order, showing the progress after the tick. *)
Definition log_output (bars : list ProgressBar) : string :=
  foldr (λ bar rest, progress_line "step" (tick bar) +:+ rest) "" bars.

(** The line printed for a bar that was just constructed for [task]. *)
Definition first_line (task : string) : string :=
  task +:+ "[10] step" +:+ newline.

(** [int main() { do_tasks_for_loop(5); do_tasks_algorithm(5); return 0; }] *)
Definition main (impl : implementation) (s : pb_state) : driver_result Z :=
  bind (do_tasks_for_loop impl 5 s) (λ _ s1,
  bind (do_tasks_algorithm impl 5 s1) (λ _ s2, Returned 0%Z s2)).

(** An element type like [ProgressBar] whose constructor rejects an empty
    prefix, to try the adapter on a constructor that throws for some
    arguments only. *)
Definition validating_ctor (args : list arg_ref) (m : pb_memory)
    : construction value ProgressBar string :=
  match ProgressBar_ctor args m with
  | constructed bar m' =>
      if decide (m_prefix bar = "") then raised "invalid argument" m'
      else constructed bar m'
  | raised e _ => match e with end
  | no_behaviour => no_behaviour
  end.

(** [sample_state] with two bars in the deque, and with an empty string
    at address 5. *)
Definition sample_bars_state : pb_state :=
  set_containers <[1%positive := [bar_of "task0"; bar_of "task1"]]> sample_state.

Definition sample_state_with_empty : pb_state :=
  set_mem (alloc 5 (VString "") (mem sample_state)) sample_state.

(** *** Traversals of a parameter pack *)

Module Traversals.

Import Instantiation.

Section Visit.

Context {Ty : Type}.

(** What an expression makes of the class [Func<T>]: [Func<T>()] only
    value-initialises a temporary of it; [Func<T>{}()] also calls its
    [operator()]. *)
Inductive use := value_construct (T : Ty) | invoke (T : Ty).

(** A unary fold over the comma operator: the operands one after the
    other, from the left; nothing for the empty pack. *)
Definition comma_fold (operands : list (list use)) : list use :=
  concat operands.

(** [(Func<Args>(), ...);] *)
Definition for_each (Args : list Ty) : list use :=
  comma_fold (map (λ T, [value_construct T]) Args).

(** [for_each_tuple_type_arg(std::tuple<Args...>)]: the pack is deduced
    from the type of the argument, which is not used;
    [(Func<Args>(), ...);] *)
Definition for_each_tuple_type_arg (Args : list Ty) : list use :=
  comma_fold (map (λ T, [value_construct T]) Args).

(** [std::tuple_size_v<Tuple>], [std::make_index_sequence<N>] and
    [std::tuple_element_t<I, Tuple>], which has no meaning for an index
    out of range. *)
Definition tuple_size (Tuple : list Ty) : nat := length Tuple.

Definition make_index_sequence (N : nat) : list nat := seq 0 N.

Definition tuple_element (I : nat) (Tuple : list Ty) : option Ty :=
  Tuple !! I.

(** [for_each_tuple_type<Func, Tuple>()]: the generic lambda is called on
    [std::make_index_sequence<std::tuple_size_v<Tuple>>()] and folds
    [(FuncLambda<std::tuple_element_t<I, TupleLambda>>(), ...);] *)
Definition for_each_tuple_type (Tuple : list Ty) : option (list use) :=
  comma_fold
    <$> mapM (λ I, (λ T, [value_construct T]) <$> tuple_element I Tuple)
             (make_index_sequence (tuple_size Tuple)).

(** [assert_arithmetic<T>]: the [static_assert] is in the body of
    [operator()], which is instantiated only where it is called;
    value-initialising the class asks nothing of [T]. *)
Definition assert_arithmetic (is_arithmetic : Ty → bool) (u : use)
    : compilation :=
  match u with
  | value_construct _ => well_formed
  | invoke T => if is_arithmetic T then well_formed else ill_formed
  end.

(** Whether a sequence of uses compiles, given what each asks for. *)
Fixpoint compiles (requirement : use → compilation) (uses : list use)
    : compilation :=
  match uses with
  | [] => well_formed
  | u :: rest =>
      match requirement u with
      | well_formed => compiles requirement rest
      | ill_formed => ill_formed
      end
  end.

End Visit.

End Traversals.

(** *** Forwarding a function object *)

Module FunctionObjects.

(** The two overloads of [function_object::operator()]. *)
Inductive overload := const_lvalue_overload | rvalue_overload.

(** [struct function_object { ...; std::stringstream value; };] with the
    characters held by the stream. *)
Record function_object := FunctionObject { value : string }.

(** Overload resolution between [operator()() const &] and
    [operator()() &&] for an object expression of category [c]. *)
Definition select_overload (c : value_category) : overload :=
  if is_rvalue c then rvalue_overload else const_lvalue_overload.

Record call_result := CallResult {
  chosen : overload;
  returned : string;
  object_after : function_object
}.

(** The call [fn()]: the lvalue overload returns [value.str()], a copy;
    the rvalue overload returns [std::move(value).str()], which leaves the
    stream without characters. *)
Definition call (c : value_category) (fn : function_object) : call_result :=
  match select_overload c with
  | const_lvalue_overload => CallResult const_lvalue_overload (value fn) fn
  | rvalue_overload =>
      CallResult rvalue_overload (value fn) (FunctionObject "")
  end.

(** [ReturnType wrapper(Function &&function) { return function(); }]: the
    name of a parameter is an lvalue, whatever [tc], the category of the
    argument, was. *)
Definition wrapper_without_forward (tc : value_category)
    (fn : function_object) : call_result :=
  call lvalue fn.

(** [ReturnType wrapper(Function &&function)
      { return std::forward<Function>(function)(); }] *)
Definition wrapper (tc : value_category) (fn : function_object)
    : call_result :=
  let Function := deduce_forwarding tc in
  call (std_forward Function) fn.

End FunctionObjects.

(** * Properties *)

(** ** Fresh addresses *)

Lemma fresh_lookup {V} (o : gmap loc V) : o !! fresh (dom o) = None.
Proof. apply not_elem_of_dom, is_fresh. Qed.

Lemma fresh_insert {V} (o : gmap loc V) l v :
  let l' := fresh (dom (<[l := v]> o)) in l' ≠ l ∧ o !! l' = None.
Proof.
  intros l'. pose proof (fresh_lookup (<[l := v]> o)) as H.
  apply lookup_insert_None in H as [H Hne]. by split.
Qed.

(** ** The adapter, for any element type *)

Section AdapterFacts.

Context {Val Elem Err : Type}.
Variable construct : list arg_ref → memory Val → construction Val Elem Err.

(** The layers of forwarding between the argument of [operator=] and the
    constructor of the element, composed. *)
Lemma supplied_category_chain tc E :
  std_forward (deduce_forwarding
    (std_forward (decltype_forwarding
      (std_get (std_forward (deduce_forwarding (std_forward (deduce_forwarding tc)))) E))))
  = supplied_category tc E.
Proof. by destruct tc, E. Qed.

Lemma forwarded_args tc t :
  std_apply (λ args, forward_pack (forward_auto_pack args))
            (std_forward (deduce_forwarding tc)) t
  = ctor_args tc t.
Proof.
  unfold std_apply, forward_pack, forward_auto_pack, ctor_args.
  rewrite !map_map. apply map_ext. intros [E l]. simpl.
  by rewrite supplied_category_chain.
Qed.

Lemma forward_pack_ctor_args tc t :
  forward_pack (ctor_args tc t) = ctor_args tc t.
Proof.
  unfold forward_pack, ctor_args. rewrite map_map. apply map_ext.
  intros [E l]. simpl. by destruct tc, E.
Qed.

(** An assignment through a bound adapter is decided by one call of the
    constructor, on the arguments of the bundle as supplied. *)
Lemma op_assign_outcome this c tc t elems (s : state Val Elem) :
  bound_to this c s →
  containers s !! c = Some elems →
  op_assign construct this tc t s
  = emplace_outcome this c elems s (construct (ctor_args tc t) (mem s)).
Proof.
  intros Hthis Hc. unfold op_assign, std_apply, assign_lambda, emplace_back.
  rewrite Hthis. simpl. rewrite Hc.
  change (forward_pack (forward_auto_pack (map ?f t)))
    with (std_apply (λ args, forward_pack (forward_auto_pack args)) (std_forward (deduce_forwarding tc)) t).
  rewrite forwarded_args.
  by destruct (construct _ _).
Qed.

Lemma op_assign_dangling_this this tc t (s : state Val Elem) :
  adapters s !! this = None → op_assign construct this tc t s = Undefined.
Proof.
  intros H. unfold op_assign, std_apply, assign_lambda. by rewrite H.
Qed.

(** C5.  One assignment through the adapter at [this], bound to the
    container at [c]: the arguments are the elements of the bundle in
    their declared order; the assignment is one call of the container's
    [emplace_back] with exactly these, followed by [return *this]; when
    the constructor succeeds, the result is a reference to the adapter
    itself, the container has grown by exactly one element, the one the
    constructor made, the constructor of the element type has run exactly
    once (nothing of the element type was built on the side), and the
    adapter objects are as before. *)
Theorem assign_emplaces_one this c tc t elems x m' (s : state Val Elem) :
  bound_to this c s →
  containers s !! c = Some elems →
  construct (ctor_args tc t) (mem s) = constructed x m' →
  map ar_loc (ctor_args tc t) = map te_loc t
  ∧ op_assign construct this tc t s
    = bind (emplace_back construct c (ctor_args tc t) s)
           (λ _ s', Returned this s')
  ∧ ∃ s', op_assign construct this tc t s = Returned this s'
      ∧ containers s' = <[c := elems ++ [x]]> (containers s)
      ∧ length <$> containers s' !! c = Some (S (length elems))
      ∧ ctor_calls s' = S (ctor_calls s)
      ∧ adapters s' = adapters s
      ∧ mem s' = m'.
Proof.
  intros Hthis Hc Hx. split; [|split].
  - unfold ctor_args. rewrite map_map. by apply map_ext.
  - rewrite (op_assign_outcome _ _ _ _ _ _ Hthis Hc).
    unfold emplace_back. rewrite Hc, forward_pack_ctor_args.
    by destruct (construct _ _).
  - rewrite (op_assign_outcome _ _ _ _ _ _ Hthis Hc), Hx. simpl.
    eexists. split; [done|]. simpl. rewrite lookup_insert_eq. simpl.
    rewrite length_app. simpl. repeat split; try done. f_equal. lia.
Qed.

(** C3.  If the constructor of the element throws [e] during an
    assignment, the assignment throws the same [e] to its caller, and the
    containers, hence the element count of the bound one, and the adapter
    objects are what they were before the attempt. *)
Theorem assign_failure_leaves_container this c tc t elems e m' (s : state Val Elem) :
  bound_to this c s →
  containers s !! c = Some elems →
  construct (ctor_args tc t) (mem s) = raised e m' →
  ∃ s', op_assign construct this tc t s = Thrown e s'
      ∧ containers s' = containers s
      ∧ length <$> containers s' !! c = Some (length elems)
      ∧ adapters s' = adapters s.
Proof.
  intros Hthis Hc He.
  rewrite (op_assign_outcome _ _ _ _ _ _ Hthis Hc), He. simpl.
  eexists. split; [done|]. simpl. by rewrite Hc.
Qed.

(** C6.  Any sequence of dereferences, pre-increments and
    post-increments on an adapter object returns and leaves the whole
    state, the adapter object and the containers included, as it was;
    a dereference and a pre-increment return a reference to the adapter
    itself, a post-increment returns a copy of it. *)
Theorem deref_and_increments_are_noops this it os (s : state Val Elem) :
  adapters s !! this = Some it →
  run_noops (Err:=Err) this os s = Returned (map (noop_returns this it) os) s.
Proof.
  intros Hthis. induction os as [|o os IH]; [done|].
  simpl. destruct o; simpl; unfold op_postinc; rewrite ?Hthis; simpl; by rewrite IH.
Qed.


Lemma op_assign_dangling_container this c tc t (s : state Val Elem) :
  bound_to this c s → containers s !! c = None →
  op_assign construct this tc t s = Undefined.
Proof.
  intros Hthis Hc. unfold op_assign, std_apply, assign_lambda, emplace_back.
  rewrite Hthis. simpl. by rewrite Hc.
Qed.

Lemma call_frame_same c (s s' : state Val Elem) :
  adapters s' = adapters s → containers s' = containers s → call_frame c s s'.
Proof.
  intros Ha Hc. unfold call_frame. rewrite Ha, Hc. repeat split; try done.
  intros elems H. exists []. by rewrite app_nil_r.
Qed.

Lemma call_frame_refl c (s : state Val Elem) : call_frame c s s.
Proof. by apply call_frame_same. Qed.

Lemma call_frame_trans c (s1 s2 s3 : state Val Elem) :
  call_frame c s1 s2 → call_frame c s2 s3 → call_frame c s1 s3.
Proof.
  intros (Ha & Hd & Ho & He) (Ha' & Hd' & Ho' & He').
  repeat split; try congruence.
  - intros c' Hne. rewrite Ho', Ho; done.
  - intros elems H. destruct (He _ H) as [new Hn].
    destruct (He' _ Hn) as [new' Hn']. exists (new ++ new').
    by rewrite Hn', app_assoc.
Qed.

(** One call stays within the footprint; so does a sequence. *)
Lemma run_call_frame this c call (s s' : state Val Elem) :
  bound_to this c s →
  final_state (run_call construct this call s) = Some s' →
  call_frame c s s'.
Proof.
  intros Hthis. destruct call as [o|tc t]; simpl.
  - destruct o; simpl; unfold op_postinc; rewrite ?Hthis; simpl;
      intros [= <-]; apply call_frame_refl.
  - destruct (containers s !! c) as [elems|] eqn:Hc.
    + rewrite (op_assign_outcome _ _ _ _ _ _ Hthis Hc).
      destruct (construct _ _) as [x m'|e m'|]; simpl; intros [= <-].
      * repeat split; simpl; try done.
        -- apply dom_insert_lookup_L. by rewrite Hc.
        -- intros c' Hne. by rewrite lookup_insert_ne.
        -- intros elems' H. exists [x]. rewrite lookup_insert_eq. congruence.
      * by apply call_frame_same.
    + by rewrite (op_assign_dangling_container _ _ _ _ _ Hthis Hc).
Qed.

Lemma run_calls_frame this c calls (s s' : state Val Elem) :
  bound_to this c s →
  final_state (run_calls construct this calls s) = Some s' →
  bound_to this c s' ∧ call_frame c s s'.
Proof.
  revert s. induction calls as [|call calls IH]; intros s Hthis; simpl.
  - intros [= <-]. split; [done | apply call_frame_refl].
  - pose proof (run_call_frame this c call s) as Hstep.
    destruct (run_call construct this call s) as [v s1|e s1|]; simpl; [| |done].
    + specialize (Hstep s1 Hthis eq_refl).
      assert (bound_to this c s1) as Hthis1.
      { unfold bound_to. destruct Hstep as [-> _]. done. }
      specialize (IH s1 Hthis1). revert IH.
      destruct (run_calls construct this calls s1) as [vs s2|e s2|]; simpl;
        [| |done]; intros IH [= <-]; destruct (IH eq_refl) as [? ?];
        (split; [done | by eapply call_frame_trans]).
    + intros [= <-]. specialize (Hstep s1 Hthis eq_refl). split; [|done].
      unfold bound_to. by destruct Hstep as [-> _].
Qed.

(** Calls on a bound adapter whose container is alive have a defined
    outcome. *)
Lemma run_calls_defined this c calls (s : state Val Elem) :
  (∀ args m, construct args m ≠ no_behaviour) →
  bound_to this c s →
  is_Some (containers s !! c) →
  is_Some (final_state (run_calls construct this calls s)).
Proof.
  intros Hctor. revert s.
  induction calls as [|call calls IH]; intros s Hthis [elems Hc]; simpl; [done|].
  pose proof (run_call_frame this c call s) as Hstep.
  assert (is_Some (final_state (run_call construct this call s))) as Hdef.
  { destruct call as [o|tc t]; simpl.
    - destruct o; simpl; unfold op_postinc; rewrite ?Hthis; done.
    - rewrite (op_assign_outcome this c tc t elems s Hthis Hc).
      specialize (Hctor (ctor_args tc t) (mem s)).
      by destruct (construct _ _). }
  destruct (run_call construct this call s) as [v s1|e s1|]; simpl;
    [| done | by destruct Hdef].
  destruct (Hstep s1 Hthis eq_refl) as (Ha & _ & _ & He).
  destruct (He _ Hc) as [new Hnew].
  assert (bound_to this c s1) as Hthis1 by (unfold bound_to; by rewrite Ha).
  specialize (IH s1 Hthis1 (ex_intro _ _ Hnew)).
  by destruct (run_calls construct this calls s1).
Qed.

(** C7.  After its construction on the container at [c], and after any
    sequence of dereferences, increments and assignments, whether it ends
    normally or by an exception, the adapter object still holds the
    address [c] and nothing else; no container has appeared or
    disappeared, the other containers are untouched, and the bound
    container still has the elements it had, in place, possibly followed
    by new ones: it was neither copied nor moved.  Such a sequence does
    end, as long as the container is alive and the constructor of the
    element has a behaviour on what it is given. *)
Theorem adapter_keeps_its_one_reference this c calls (s0 : state Val Elem) :
  let run :=
    bind (back_emplace_iterator_ctor (Err := Err) this c s0)
         (λ _ s, run_calls construct this calls s) in
  ((∀ args m, construct args m ≠ no_behaviour) →
   is_Some (containers s0 !! c) →
   is_Some (final_state run))
  ∧ ∀ s',
      final_state run = Some s' →
      adapters s' !! this = Some (BackEmplaceIterator c)
      ∧ dom (containers s') = dom (containers s0)
      ∧ (∀ c', c' ≠ c → containers s' !! c' = containers s0 !! c')
      ∧ (∀ elems, containers s0 !! c = Some elems →
           ∃ new, containers s' !! c = Some (elems ++ new)).
Proof.
  simpl. split.
  - intros Hctor Hc. apply (run_calls_defined this c); [done | | done].
    apply lookup_insert_eq.
  - intros s' H.
    apply (run_calls_frame this c) in H; [|apply lookup_insert_eq].
    destruct H as [Hb (Ha & Hd & Ho & He)]. done.
Qed.

Lemma run_call_value this c call v (s s' : state Val Elem) :
  bound_to this c s →
  run_call construct this call s = Returned v s' →
  v = reference_to this ∨ v = copy_of (BackEmplaceIterator c).
Proof.
  intros Hthis. destruct call as [[| |]|tc t]; simpl;
    unfold op_postinc; rewrite ?Hthis; simpl; try (intros [= <- _]; auto; fail).
  destruct (op_assign construct this tc t s) as [r s1|e s1|] eqn:Hr; simpl;
    try done.
  intros [= <- _]. left. f_equal.
  unfold op_assign in Hr.
  destruct (std_apply _ _ _ _); simpl in Hr; congruence.
Qed.

Lemma run_calls_values this c calls vs (s s' : state Val Elem) :
  bound_to this c s →
  run_calls construct this calls s = Returned vs s' →
  Forall (λ v, v = reference_to this ∨ v = copy_of (BackEmplaceIterator c)) vs.
Proof.
  revert s s' vs.
  induction calls as [|call calls IH]; intros s s' vs Hthis; simpl.
  - by intros [= <- _].
  - destruct (run_call construct this call s) as [v s1|e s1|] eqn:Hcall;
      simpl; try done.
    assert (bound_to this c s1) as Hthis1.
    { pose proof (run_call_frame this c call s s1 Hthis) as Hf.
      rewrite Hcall in Hf. destruct (Hf eq_refl) as [Ha _].
      unfold bound_to. by rewrite Ha. }
    destruct (run_calls construct this calls s1) as [vs1 s2|e s2|] eqn:Hrest;
      simpl; try done.
    intros [= <- _]. constructor.
    + by apply (run_call_value this c call v s s1).
    + by apply (IH s1 s2).
Qed.

Lemma elements_in_order_length {A} unary_op (xs : list A) m es m' :
  elements_in_order construct unary_op xs m = Some (es, m') →
  length es = length xs.
Proof.
  revert m es. induction xs as [|x xs IH]; intros m es; simpl.
  - by intros [= <- _].
  - destruct (unary_op x m) as [[[tc t] m1]|]; [|done].
    destruct (construct _ _) as [e m2| |]; try done.
    destruct (elements_in_order _ _ _ _) as [[es' m'']|] eqn:Hrest; [|done].
    intros [= <- <-]. simpl. f_equal. eauto.
Qed.

Lemma elements_in_order_lookup {A} unary_op (xs : list A) m es m' i x :
  elements_in_order construct unary_op xs m = Some (es, m') →
  xs !! i = Some x →
  ∃ m0 tc t m1 e m2,
    unary_op x m0 = Some (tc, t, m1)
    ∧ construct (ctor_args tc t) m1 = constructed e m2
    ∧ es !! i = Some e.
Proof.
  revert m es i. induction xs as [|y xs IH]; intros m es i; simpl; [done|].
  destruct (unary_op y m) as [[[tc t] m1]|] eqn:Hop; [|done].
  destruct (construct _ _) as [e m2| |] eqn:Hctor; try done.
  destruct (elements_in_order _ _ _ _) as [[es' m'']|] eqn:Hrest; [|done].
  intros [= <- <-]. destruct i as [|i]; simpl.
  - intros [= <-]. by exists m, tc, t, m1, e, m2.
  - intros Hi. eauto.
Qed.

(** The loop of [std::transform] appends the elements in order. *)
Lemma transform_loop_emplaces {A} unary_op (xs : list A) d c elems es m'
    (s : state Val Elem) :
  bound_to d c s →
  containers s !! c = Some elems →
  elements_in_order construct unary_op xs (mem s) = Some (es, m') →
  transform_loop construct unary_op xs d s
  = Returned tt (State (<[c := elems ++ es]> (containers s)) (adapters s) m'
                       (length xs + ctor_calls s)).
Proof.
  revert s elems es. induction xs as [|x xs IH]; intros s elems es Hd Hc; simpl.
  - intros [= <- <-]. rewrite app_nil_r, insert_id by done. by destruct s.
  - destruct (unary_op x (mem s)) as [[[tc t] m1]|]; [|done].
    destruct (construct _ _) as [e m2| |] eqn:Hctor; try done.
    destruct (elements_in_order _ _ _ _) as [[es' m'']|] eqn:Hrest; [|done].
    intros [= <- <-].
    rewrite (op_assign_outcome d c tc t elems) by done.
    simpl. rewrite Hctor. simpl.
    erewrite IH; [| done | simpl; apply lookup_insert_eq | simpl; done].
    simpl. f_equal. f_equal; [|lia].
    by rewrite insert_insert_eq, <-app_assoc.
Qed.

(** C1.  [std::transform] over [N] inputs, writing into [back_emplacer(c)]
    one bundle per input as [do_tasks_algorithm] does, returns and leaves in
    the container at [c] what it held followed by exactly [N] new elements;
    a container that was empty, as in [do_tasks_algorithm], ends with
    exactly [N] elements.  The i-th new element is the one the constructor
    makes from the arguments of the i-th bundle, in input order; the
    constructor has run [N] times and the adapter objects are as before.
    The hypothesis says that every one of these constructions succeeds. *)
Theorem transform_emplaces_in_order {A} unary_op (xs : list A) c elems es m'
    (s : state Val Elem) :
  containers s !! c = Some elems →
  elements_in_order construct unary_op xs (mem s) = Some (es, m') →
  ∃ s',
    std_transform construct unary_op xs (back_emplacer c) s
    = Returned (back_emplacer c) s'
    ∧ containers s' !! c = Some (elems ++ es)
    ∧ length es = length xs
    ∧ (elems = [] → length <$> containers s' !! c = Some (length xs))
    ∧ ctor_calls s' = length xs + ctor_calls s
    ∧ adapters s' = adapters s
    ∧ (∀ i x, xs !! i = Some x →
         ∃ m0 tc t m1 e m2,
           unary_op x m0 = Some (tc, t, m1)
           ∧ construct (ctor_args tc t) m1 = constructed e m2
           ∧ (elems ++ es) !! (length elems + i) = Some e).
Proof.
  intros Hc Hes.
  pose proof (elements_in_order_length _ _ _ _ _ Hes) as Hlen.
  unfold std_transform.
  set (d := fresh (dom (adapters s))).
  erewrite transform_loop_emplaces;
    [| apply lookup_insert_eq | exact Hc | exact Hes ].
  simpl. rewrite lookup_insert_eq.
  eexists. split; [done|]. simpl. rewrite lookup_insert_eq.
  repeat split; try done.
  - intros ->. simpl. by rewrite Hlen.
  - apply delete_insert_id, fresh_lookup.
  - intros i x Hi.
    destruct (elements_in_order_lookup _ _ _ _ _ _ _ Hes Hi)
      as (m0 & tc & t & m1 & e & m2 & ? & ? & ?).
    exists m0, tc, t, m1, e, m2. repeat split; try done.
    by rewrite lookup_app_r, Nat.add_comm, Nat.add_sub by lia.
Qed.

End AdapterFacts.

(** ** [get_tasks] *)

(** The strings generated from a counter at [i]: the generator is called
    [count] times, which is defined as long as the counter stays below
    [INT_MAX] before each call. *)
Lemma generate_n_tasks count i out :
  (0 ≤ i ≤ INT_MAX)%Z →
  generate_n count task_generator i out
  = if decide (i + Z.of_nat count ≤ INT_MAX)%Z
    then Some (out ++ map (λ k, "task" +:+ to_string (i + Z.of_nat k))
                          (seq 0 count))
    else None.
Proof.
  revert i out. induction count as [|count IH]; intros i out Hi.
  - rewrite decide_True by lia. simpl. by rewrite app_nil_r.
  - cbn [generate_n]. unfold task_generator.
    destruct (Z.ltb_spec i INT_MAX) as [Hlt|Hge].
    + rewrite IH by lia.
      destruct (decide (i + 1 + Z.of_nat count ≤ INT_MAX)%Z) as [Hle|Hgt].
      * rewrite decide_True by lia. f_equal.
        rewrite <-app_assoc. f_equal. cbn [seq map app].
        rewrite Z.add_0_r. f_equal.
        rewrite <-seq_shift, map_map. apply map_ext. intros k.
        do 2 f_equal. lia.
      * by rewrite decide_False by lia.
    + by rewrite decide_False by lia.
Qed.

(** What [get_tasks] does, for every count. *)
Lemma get_tasks_spec impl n :
  get_tasks impl n
  = match reserve impl n with
    | Some e => tasks_thrown e
    | None =>
        if decide (Z.of_N n ≤ INT_MAX)%Z
        then tasks_returned (task_names (N.to_nat n))
        else tasks_undefined
    end.
Proof.
  unfold get_tasks. destruct (reserve impl n); [done|].
  rewrite generate_n_tasks by (unfold INT_MAX; lia).
  rewrite Z.add_0_l, N_nat_Z.
  destruct (decide (Z.of_N n ≤ INT_MAX)%Z); [|done].
  simpl. f_equal.
Qed.

Lemma get_tasks_returns impl n :
  reserve impl n = None →
  (Z.of_N n ≤ INT_MAX)%Z →
  get_tasks impl n = tasks_returned (task_names (N.to_nat n)).
Proof.
  intros Hreserve Hn. rewrite get_tasks_spec, Hreserve.
  by rewrite decide_True.
Qed.

Lemma get_tasks_returned impl n tasks :
  get_tasks impl n = tasks_returned tasks →
  reserve impl n = None
  ∧ (Z.of_N n ≤ INT_MAX)%Z
  ∧ tasks = task_names (N.to_nat n).
Proof.
  rewrite get_tasks_spec. destruct (reserve impl n); [done|].
  destruct (decide (Z.of_N n ≤ INT_MAX)%Z); [|done].
  by intros [= <-].
Qed.

Lemma task_names_length n : length (task_names n) = n.
Proof. unfold task_names. by rewrite length_map, length_seq. Qed.

Lemma task_names_lookup n i :
  i < n → task_names n !! i = Some ("task" +:+ to_string (Z.of_nat i)).
Proof.
  intros Hi. unfold task_names.
  change (map ?f ?l) with (f <$> l).
  by rewrite list_lookup_fmap, lookup_seq_lt.
Qed.

(** C9, amended.  For every [n] that does not exceed [INT_MAX] and for
    which [tasks.reserve(n)] succeeds, [get_tasks(n)] returns a vector of
    exactly [n] strings whose i-th string, counting from 0, is ["task"]
    followed by [i] in decimal. *)
Theorem get_tasks_names_in_order impl n :
  reserve impl n = None →
  (Z.of_N n ≤ INT_MAX)%Z →
  ∃ tasks,
    get_tasks impl n = tasks_returned tasks
    ∧ length tasks = N.to_nat n
    ∧ ∀ i, i < N.to_nat n →
           tasks !! i = Some ("task" +:+ to_string (Z.of_nat i)).
Proof.
  intros Hreserve Hn. exists (task_names (N.to_nat n)).
  split; [by apply get_tasks_returns|].
  split; [apply task_names_length|]. apply task_names_lookup.
Qed.

Lemma get_tasks_names_in_order_witness :
  ∃ tasks,
    get_tasks sample_implementation 3 = tasks_returned tasks
    ∧ length tasks = 3
    ∧ ∀ i, i < 3 → tasks !! i = Some ("task" +:+ to_string (Z.of_nat i)).
Proof.
  apply (get_tasks_names_in_order sample_implementation 3).
  - reflexivity.
  - unfold INT_MAX. simpl. lia.
Defined.

(** C9 does not hold for every [n]: a count above [max_size()], such as
    the largest [size_t] of 64 bits, makes [tasks.reserve] throw
    [std::length_error], and no vector is returned; and from [2 ^ 31]
    tasks on, the [int] counter of the generator is incremented past
    [INT_MAX], for which the language defines no behaviour. *)
Lemma get_tasks_fails_for_large_counts :
  get_tasks sample_implementation 18446744073709551615
  = tasks_thrown length_error
  ∧ get_tasks sample_implementation 2147483648 = tasks_undefined.
Proof.
  rewrite !get_tasks_spec. split.
  - assert (reserve sample_implementation 18446744073709551615
            = Some length_error) as -> by reflexivity.
    done.
  - assert (reserve sample_implementation 2147483648 = None) as ->
      by reflexivity.
    rewrite decide_False; [done|]. unfold INT_MAX. lia.
Qed.

(** ** [ProgressBar] and the drivers *)

(** One round of the explicit loop. *)
Lemma emplace_each_step task str rest bars elems (s : pb_state) :
  containers s !! bars = Some elems →
  objects (mem s) !! task = Some (VString str) →
  emplace_each (task :: rest) bars s
  = emplace_each rest bars
      (State (<[bars := elems ++ [bar_of str]]> (containers s)) (adapters s)
             (Memory (objects (mem s)) (S (copies (mem s))) (S (moves (mem s))))
             (S (ctor_calls s))).
Proof.
  intros Hbars Htask. cbn [emplace_each].
  set (p := fresh (dom (objects (mem s)))).
  assert (objects (mem s) !! p = None) as Hp by apply fresh_lookup.
  assert (p ≠ task) as Hne by congruence.
  unfold emplace_back. simpl. rewrite Hbars.
  unfold copy_or_move. simpl. rewrite lookup_insert_eq. simpl.
  rewrite lookup_insert_ne, Htask by done. simpl.
  unfold set_mem, count_ctor_call, set_containers, free. simpl.
  by rewrite delete_insert_id.
Qed.

Lemma emplace_each_fills tasks strs bars o elems (s : pb_state) :
  Forall2 (λ task str, o !! task = Some (VString str)) tasks strs →
  objects (mem s) = o →
  containers s !! bars = Some elems →
  emplace_each tasks bars s
  = Returned tt
      (State (<[bars := elems ++ map bar_of strs]> (containers s)) (adapters s)
             (Memory o (length tasks + copies (mem s))
                     (length tasks + moves (mem s)))
             (length tasks + ctor_calls s)).
Proof.
  intros Hall. revert elems s.
  induction Hall as [|task str tasks strs Htask Hall IH]; intros elems s Ho Hbars.
  - simpl. rewrite app_nil_r, insert_id by done. subst o. by destruct s as [? ? []].
  - rewrite (emplace_each_step task str tasks bars elems) by congruence.
    rewrite (IH (elems ++ [bar_of str])); simpl;
      [| done | apply lookup_insert_eq].
    rewrite insert_insert_eq, <-app_assoc. simpl.
    subst o. do 2 f_equal; [f_equal|]; lia.
Qed.

(** One call of the lambda of [do_tasks_algorithm]. *)
Lemma task_to_bundle_makes task str (m : pb_memory) :
  objects m !! task = Some (VString str) →
  ∃ l1 l2,
    l1 ≠ l2 ∧ objects m !! l1 = None ∧ objects m !! l2 = None
    ∧ task_to_bundle task m
      = Some (prvalue, [TupleElement non_ref l1; TupleElement non_ref l2],
              Memory (<[l2 := VString str]> (<[l1 := VPointer cout_rdbuf]> (objects m)))
                     (S (copies m)) (moves m)).
Proof.
  intros Htask. unfold task_to_bundle, make_tuple.
  set (p := fresh (dom (objects m))).
  assert (objects m !! p = None) as Hp by apply fresh_lookup.
  assert (p ≠ task) as Hne by congruence.
  cbn [forward_pack map ar_cat ar_loc make_tuple_elements].
  unfold copy_or_move at 1. cbn [alloc objects ar_loc copies moves].
  rewrite lookup_insert_eq. cbn [alloc objects ar_loc copies moves].
  set (l1 := fresh (dom (<[p := VPointer cout_rdbuf]> (objects m)))).
  destruct (fresh_insert (objects m) p (VPointer cout_rdbuf)) as [Hl1p Hl1].
  fold l1 in Hl1p, Hl1.
  assert (l1 ≠ task) as Hl1t by congruence.
  unfold copy_or_move. cbn [alloc objects ar_loc ar_cat copies moves].
  rewrite !lookup_insert_ne, Htask by done.
  cbn [is_rvalue std_forward deduce_forwarding add_rvalue_ref category_of_call
       alloc objects copies moves].
  set (l2 := fresh (dom (<[l1 := VPointer cout_rdbuf]>
                           (<[p := VPointer cout_rdbuf]> (objects m))))).
  destruct (fresh_insert (<[p := VPointer cout_rdbuf]> (objects m)) l1
              (VPointer cout_rdbuf)) as [Hl21 Hl2].
  fold l2 in Hl21, Hl2. apply lookup_insert_None in Hl2 as [Hl2 Hl2p].
  exists l1, l2. repeat split; try done.
  unfold free, alloc. cbn [objects copies moves]. do 3 f_equal.
  rewrite delete_insert_ne, delete_insert_ne, delete_insert_id by done. done.
Qed.

Lemma bundle_constructs task str (m : pb_memory) :
  objects m !! task = Some (VString str) →
  ∃ tc t m1 m2,
    task_to_bundle task m = Some (tc, t, m1)
    ∧ ProgressBar_ctor (ctor_args tc t) m1 = constructed (bar_of str) m2
    ∧ release tc t m2 = Memory (objects m) (S (copies m)) (2 + moves m).
Proof.
  intros Htask.
  destruct (task_to_bundle_makes task str m Htask)
    as (l1 & l2 & Hne & Hl1 & Hl2 & ->).
  eexists _, _, _, _. split; [reflexivity|].
  unfold ProgressBar_ctor, copy_or_move.
  cbn [ctor_args map supplied_category te_type te_loc ar_loc ar_cat objects
       copies moves is_rvalue].
  rewrite lookup_insert_ne, lookup_insert_eq by done.
  cbn [objects copies moves]. rewrite lookup_insert_eq.
  split; [reflexivity|].
  unfold release, destroy_tuple. cbn [foldr te_type te_loc objects copies moves].
  f_equal.
  rewrite insert_insert_eq, delete_insert_eq, delete_insert_ne by done.
  rewrite (delete_id _ l2) by done. by rewrite delete_insert_id.
Qed.

Lemma ProgressBar_elements_in_order tasks strs o (m : pb_memory) :
  Forall2 (λ task str, o !! task = Some (VString str)) tasks strs →
  objects m = o →
  elements_in_order ProgressBar_ctor task_to_bundle tasks m
  = Some (map bar_of strs,
          Memory o (length tasks + copies m) (2 * length tasks + moves m)).
Proof.
  intros Hall. revert m.
  induction Hall as [|task str tasks strs Htask Hall IH]; intros m Ho.
  - simpl. subst o. by destruct m.
  - cbn [elements_in_order].
    destruct (bundle_constructs task str m) as (tc & t & m1 & m2 & -> & -> & ->);
      [congruence|].
    rewrite IH by done. simpl. do 3 f_equal; lia.
Qed.

Lemma alloc_vector_spec strs (m : pb_memory) :
  ∃ tasks m',
    alloc_vector strs m = (tasks, m')
    ∧ Forall2 (λ task str, objects m' !! task = Some (VString str)) tasks strs
    ∧ copies m' = copies m ∧ moves m' = moves m
    ∧ (∀ l v, objects m !! l = Some v → objects m' !! l = Some v).
Proof.
  revert m. induction strs as [|str strs IH]; intros m.
  - exists [], m. by repeat split.
  - cbn [alloc_vector]. set (l := fresh (dom (objects m))).
    destruct (IH (alloc l (VString str) m))
      as (tasks & m' & -> & Hall & Hc & Hm & Hkeep).
    exists (l :: tasks), m'. repeat split; try done.
    + constructor; [|done]. apply Hkeep. simpl. apply lookup_insert_eq.
    + intros l' v Hl'. apply Hkeep. simpl. rewrite lookup_insert_ne; [done|].
      intros Heq. rewrite <-Heq in Hl'. unfold l in Hl'.
      by rewrite fresh_lookup in Hl'.
Qed.


(** What the two ways of filling have built when they are done. *)
Lemma with_locals_fills names tasks m' (s : pb_state) :
  alloc_vector names (mem s) = (tasks, m') →
  with_locals names emplace_each s
  = Returned (fresh (dom (containers s)), tasks)
      (State (<[fresh (dom (containers s)) := map bar_of names]> (containers s))
             (adapters s)
             (Memory (objects m') (length names + copies (mem s))
                     (length names + moves (mem s)))
             (length names + ctor_calls s))
  ∧ with_locals names transform_each s
  = Returned (fresh (dom (containers s)), tasks)
      (State (<[fresh (dom (containers s)) := map bar_of names]> (containers s))
             (adapters s)
             (Memory (objects m') (length names + copies (mem s))
                     (2 * length names + moves (mem s)))
             (length names + ctor_calls s)).
Proof.
  intros Halloc. unfold with_locals, transform_each.
  destruct (alloc_vector_spec names (mem s))
    as (tasks' & m'' & Heq & Hall & Hc & Hm & _).
  rewrite Halloc in Heq. injection Heq as <- <-. rewrite Halloc.
  assert (length tasks = length names) as Hlen by by apply Forall2_length in Hall.
  split.
  - erewrite (emplace_each_fills tasks names _ (objects m') []);
      [| done | done | simpl; apply lookup_insert_eq].
    simpl. rewrite insert_insert_eq, Hlen, Hc, Hm. done.
  - unfold std_transform.
    erewrite transform_loop_emplaces;
      [| apply lookup_insert_eq | simpl; apply lookup_insert_eq
       | by apply ProgressBar_elements_in_order ].
    simpl. rewrite lookup_insert_eq. simpl. unfold set_adapters. simpl.
    rewrite insert_insert_eq, delete_insert_id by apply fresh_lookup.
    by rewrite Hlen, Hc, Hm.
Qed.

Lemma write_progress_counters data bar (m : pb_memory) :
  write_progress data bar m
  = (λ m', Memory (objects m') (copies m) (moves m))
      <$> write_progress data bar (Memory (objects m) 0 0).
Proof.
  unfold write_progress. simpl. by destruct (objects m !! m_out bar) as [[]|].
Qed.

(** [log_progress] neither reads nor changes the counters of copies and
    moves. *)
Lemma log_each_counters bars (m : pb_memory) :
  log_each bars m
  = (λ '(bars', m'), (bars', Memory (objects m') (copies m) (moves m)))
      <$> log_each bars (Memory (objects m) 0 0).
Proof.
  revert m. induction bars as [|bar bars IH]; intros m; simpl.
  - by destruct m.
  - rewrite (write_progress_counters _ _ m).
    destruct (write_progress _ _ (Memory (objects m) 0 0)) as [m1|]; [|done].
    simpl. rewrite (IH (Memory _ _ _)), (IH m1). simpl.
    by destruct (log_each bars _) as [[bars' m2]|].
Qed.

Lemma finish_same_outcome locals (s1 s2 : pb_state) :
  containers s1 = containers s2 →
  adapters s1 = adapters s2 →
  objects (mem s1) = objects (mem s2) →
  copies (mem s1) = copies (mem s2) →
  ctor_calls s1 = ctor_calls s2 →
  same_outcome (cannot_throw (finish locals s1))
               (cannot_throw (finish locals s2)).
Proof.
  intros Hc Ha Ho Hn Hk. destruct locals as [bars tasks].
  unfold finish, log_progress. rewrite Hc.
  destruct (containers s2 !! bars) as [elems|]; [|done].
  rewrite (log_each_counters elems (mem s1)), (log_each_counters elems (mem s2)).
  rewrite Ho. destruct (log_each elems _) as [[elems' m']|]; [|done].
  simpl. by rewrite Hc, Ha.
Qed.

(** What [main] prints through either driver, for two tasks. *)
Example do_tasks_algorithm_prints :
  (λ s, objects (mem s) !! cout_rdbuf)
    <$> final_state (do_tasks_algorithm sample_implementation 2 initial_state)
  = Some (Some (VStreambuf ("task0[10] step" +:+ newline +:+
                            "task1[10] step" +:+ newline))).
Proof. vm_compute. reflexivity. Qed.

Example do_tasks_for_loop_prints :
  (λ s, objects (mem s) !! cout_rdbuf)
    <$> final_state (do_tasks_for_loop sample_implementation 2 initial_state)
  = Some (Some (VStreambuf ("task0[10] step" +:+ newline +:+
                            "task1[10] step" +:+ newline))).
Proof. vm_compute. reflexivity. Qed.

(** When [get_tasks] throws, so do both drivers, before anything is
    built. *)
Lemma drivers_rethrow impl n e (s : pb_state) :
  get_tasks impl n = tasks_thrown e →
  fill_for_loop impl n s = Thrown e s
  ∧ fill_algorithm impl n s = Thrown e s
  ∧ do_tasks_for_loop impl n s = Thrown e s
  ∧ do_tasks_algorithm impl n s = Thrown e s.
Proof.
  intros He.
  unfold fill_for_loop, fill_algorithm, do_tasks_for_loop, do_tasks_algorithm,
    after_get_tasks.
  by rewrite He.
Qed.

(** C8, amended.  For every number of tasks [n] for which [get_tasks(n)]
    returns, that is, [tasks.reserve(n)] succeeds and [n] does not
    exceed [INT_MAX], and from every state, the explicit loop and the
    algorithm both return with the deque [bars] holding exactly [n]
    elements: the ones made, in order, from [std::cout.rdbuf()] and the
    task strings ["task0"], ["task1"], ...  Each has run the constructor
    [n] times, and the two drivers end in the same way, up to the number
    of string moves made for the arguments. *)
Theorem drivers_build_equal_deques impl n (s : pb_state) :
  reserve impl n = None →
  (Z.of_N n ≤ INT_MAX)%Z →
  ∃ bars tasks s1 s2,
    fill_for_loop impl n s = Returned (bars, tasks) s1
    ∧ fill_algorithm impl n s = Returned (bars, tasks) s2
    ∧ containers s1 !! bars = Some (map bar_of (task_names (N.to_nat n)))
    ∧ containers s2 !! bars = Some (map bar_of (task_names (N.to_nat n)))
    ∧ length (map bar_of (task_names (N.to_nat n))) = N.to_nat n
    ∧ ctor_calls s1 = N.to_nat n + ctor_calls s
    ∧ ctor_calls s2 = N.to_nat n + ctor_calls s
    ∧ same_outcome (do_tasks_for_loop impl n s) (do_tasks_algorithm impl n s).
Proof.
  intros Hreserve Hn.
  pose proof (get_tasks_returns impl n Hreserve Hn) as Hnames.
  destruct (alloc_vector (task_names (N.to_nat n)) (mem s))
    as [tasks m'] eqn:Halloc.
  destruct (with_locals_fills _ _ _ s Halloc) as [Hloop Halg].
  unfold fill_for_loop, fill_algorithm, do_tasks_for_loop, do_tasks_algorithm,
    after_get_tasks.
  rewrite Hnames, Hloop, Halg. cbn [cannot_throw bind].
  eexists _, tasks, _, _. split; [done|]. split; [done|].
  cbn [containers ctor_calls].
  rewrite lookup_insert_eq, length_map, !task_names_length.
  repeat split; try done.
  by apply finish_same_outcome.
Qed.

Lemma drivers_build_equal_deques_witness :
  ∃ bars tasks s1 s2,
    fill_for_loop sample_implementation 2 initial_state
    = Returned (bars, tasks) s1
    ∧ fill_algorithm sample_implementation 2 initial_state
      = Returned (bars, tasks) s2
    ∧ containers s1 !! bars = Some [bar_of "task0"; bar_of "task1"]
    ∧ containers s2 !! bars = Some [bar_of "task0"; bar_of "task1"].
Proof.
  destruct (drivers_build_equal_deques sample_implementation 2 initial_state)
    as (bars & tasks & s1 & s2 & H1 & H2 & Hb1 & Hb2 & _).
  - reflexivity.
  - unfold INT_MAX. simpl. lia.
  - exists bars, tasks, s1, s2. repeat split; assumption.
Defined.

(** C8 does not hold for every [n]: for a count above [max_size()] both
    drivers leave by the [std::length_error] of [tasks.reserve], with no
    deque built; and for [2 ^ 31] tasks the language defines no
    behaviour of either. *)
Lemma drivers_fail_for_large_counts :
  fill_for_loop sample_implementation 18446744073709551615 initial_state
  = Thrown length_error initial_state
  ∧ fill_algorithm sample_implementation 18446744073709551615 initial_state
    = Thrown length_error initial_state
  ∧ fill_for_loop sample_implementation 2147483648 initial_state = Undefined
  ∧ fill_algorithm sample_implementation 2147483648 initial_state = Undefined.
Proof.
  assert (get_tasks sample_implementation 18446744073709551615
          = tasks_thrown length_error) as Hthrown.
  { rewrite get_tasks_spec.
    assert (reserve sample_implementation 18446744073709551615
            = Some length_error) as -> by reflexivity.
    done. }
  assert (get_tasks sample_implementation 2147483648 = tasks_undefined)
    as Hundefined.
  { rewrite get_tasks_spec.
    assert (reserve sample_implementation 2147483648 = None) as ->
      by reflexivity.
    rewrite decide_False; [done|]. unfold INT_MAX. lia. }
  unfold fill_for_loop, fill_algorithm, after_get_tasks.
  rewrite Hthrown, Hundefined. clear Hthrown Hundefined.
  repeat split; reflexivity.
Qed.

Lemma ctor_args_as_supplied tc t :
  Forall2 (λ e a,
             ar_loc a = te_loc e
             ∧ (is_rvalue tc = true → te_type e ≠ lvalue_ref → ar_cat a = xvalue)
             ∧ (tc = lvalue ∨ te_type e = lvalue_ref → ar_cat a = lvalue))
          t (ctor_args tc t).
Proof.
  induction t as [|[E l] t IH]; constructor; [|done].
  simpl. split; [done|]. destruct tc, E; simpl; intuition congruence.
Qed.

Lemma ProgressBar_from_bundle this c tc E_buffer E_prefix l_buffer l_prefix
    buffer prefix elems (s : pb_state) :
  bound_to this c s →
  containers s !! c = Some elems →
  objects (mem s) !! l_buffer = Some (VPointer buffer) →
  objects (mem s) !! l_prefix = Some (VString prefix) →
  op_assign ProgressBar_ctor this tc
    [TupleElement E_buffer l_buffer; TupleElement E_prefix l_prefix] s
  = Returned this
      (State (<[c := elems ++ [MkProgressBar buffer prefix 0]]> (containers s))
             (adapters s)
             (if is_rvalue (supplied_category tc E_prefix)
              then Memory (<[l_prefix := VString ""]> (objects (mem s)))
                          (copies (mem s)) (2 + moves (mem s))
              else Memory (objects (mem s)) (1 + copies (mem s))
                          (1 + moves (mem s)))
             (S (ctor_calls s))).
Proof.
  intros Hthis Hc Hb Hp.
  rewrite (op_assign_outcome ProgressBar_ctor this c tc _ elems s Hthis Hc).
  unfold ProgressBar_ctor, copy_or_move.
  cbn [ctor_args map te_type te_loc ar_loc ar_cat].
  rewrite Hb. cbn beta iota. rewrite Hp.
  by destruct (is_rvalue (supplied_category tc E_prefix)).
Qed.

(** C2.  First part, for every element type: the assignment calls the
    constructor on the elements of the bundle, in place (same addresses),
    in the memory its caller left; an element of a temporary bundle that
    is not an lvalue reference arrives as an xvalue, which can be moved
    from, and an element that is an lvalue reference, or any element of a
    named bundle, arrives as an lvalue.  Second part, observed on
    [ProgressBar], whose [prefix] parameter is taken by value: a string
    supplied as a movable temporary is moved (two moves, no copy: into the
    parameter, then into the member) and its source is left moved-from; a
    string supplied as a named value is copied once and is afterwards what
    it was. *)
Theorem assign_preserves_value_categories :
  (∀ (Val Elem Err : Type)
     (construct : list arg_ref → memory Val → construction Val Elem Err)
     this c tc t elems (s : state Val Elem),
     bound_to this c s →
     containers s !! c = Some elems →
     op_assign construct this tc t s
     = emplace_outcome this c elems s (construct (ctor_args tc t) (mem s))
     ∧ Forall2 (λ e a,
                  ar_loc a = te_loc e
                  ∧ (is_rvalue tc = true → te_type e ≠ lvalue_ref →
                     ar_cat a = xvalue)
                  ∧ (tc = lvalue ∨ te_type e = lvalue_ref → ar_cat a = lvalue))
               t (ctor_args tc t))
  ∧ (∀ this c tc E_buffer E_prefix l_buffer l_prefix buffer prefix elems
       (s : pb_state),
     bound_to this c s →
     containers s !! c = Some elems →
     objects (mem s) !! l_buffer = Some (VPointer buffer) →
     objects (mem s) !! l_prefix = Some (VString prefix) →
     ∃ s',
       op_assign ProgressBar_ctor this tc
         [TupleElement E_buffer l_buffer; TupleElement E_prefix l_prefix] s
       = Returned this s'
       ∧ containers s' !! c = Some (elems ++ [MkProgressBar buffer prefix 0])
       ∧ (is_rvalue tc = true → E_prefix ≠ lvalue_ref →
          copies (mem s') = copies (mem s)
          ∧ moves (mem s') = 2 + moves (mem s)
          ∧ objects (mem s') = <[l_prefix := VString ""]> (objects (mem s)))
       ∧ (tc = lvalue ∨ E_prefix = lvalue_ref →
          copies (mem s') = 1 + copies (mem s)
          ∧ moves (mem s') = 1 + moves (mem s)
          ∧ objects (mem s') = objects (mem s))).
Proof.
  split.
  - intros. split; [by apply op_assign_outcome | apply ctor_args_as_supplied].
  - intros this c tc E_buffer E_prefix l_buffer l_prefix buffer prefix elems s
      Hthis Hc Hb Hp.
    eexists. split; [by apply ProgressBar_from_bundle|].
    cbn [containers mem]. rewrite lookup_insert_eq. split; [done|]. split.
    + intros Htc HE.
      replace (supplied_category tc E_prefix) with xvalue
        by (by destruct tc, E_prefix).
      done.
    + intros HE.
      replace (supplied_category tc E_prefix) with lvalue
        by (destruct tc, E_prefix, HE; done).
      done.
Qed.

Lemma assign_preserves_value_categories_witness :
  ∃ s',
    op_assign ProgressBar_ctor 1 prvalue owning_bundle sample_state
    = Returned 1%positive s'
    ∧ containers s' !! 1%positive = Some [MkProgressBar cout_rdbuf "task0" 0]
    ∧ moves (mem s') = 2 ∧ copies (mem s') = 0
    ∧ objects (mem s') !! 3%positive = Some (VString "").
Proof.
  destruct (proj2 assign_preserves_value_categories
              1%positive 1%positive prvalue non_ref non_ref 2%positive
              3%positive cout_rdbuf "task0" [] sample_state)
    as (s' & Hs' & Hbar & Hmoved & _); try reflexivity.
  exists s'.
  destruct (Hmoved eq_refl ltac:(discriminate)) as (Hcopies & Hmoves & Hobjects).
  rewrite Hobjects. repeat split; assumption.
Defined.

(** ** Fold helpers *)

Lemma all_of_forallb {Ty} (P : Ty → bool) Args :
  Folds.all_of P Args = forallb P Args.
Proof.
  induction Args as [|T [|U rest] IH]; [done| |].
  - simpl. by rewrite andb_true_r.
  - change (Folds.all_of P (T :: U :: rest))
      with (P T && Folds.all_of P (U :: rest)).
    by rewrite IH.
Qed.

Lemma any_of_existsb {Ty} (P : Ty → bool) Args :
  Folds.any_of P Args = existsb P Args.
Proof.
  induction Args as [|T [|U rest] IH]; [done| |].
  - simpl. by rewrite orb_false_r.
  - change (Folds.any_of P (T :: U :: rest))
      with (P T || Folds.any_of P (U :: rest)).
    by rewrite IH.
Qed.

Lemma none_of_forallb {Ty} (P : Ty → bool) Args :
  Folds.none_of P Args = forallb (λ T, negb (P T)) Args.
Proof.
  unfold Folds.none_of. rewrite any_of_existsb.
  induction Args as [|T rest IH]; [done|].
  simpl. by rewrite negb_orb, IH.
Qed.

Example main_returns_8 : Folds.main_result = Some 8.
Proof. reflexivity. Qed.

(** C10.  For every predicate: [all_of] over the empty pack is [true],
    [any_of] over the empty pack is [false], and over every pack [none_of]
    is the negation of [any_of]. *)
Theorem fold_identities_and_negation {Ty} (P : Ty → bool) :
  Folds.all_of P [] = true
  ∧ Folds.any_of P [] = false
  ∧ ∀ Args, Folds.none_of P Args = negb (Folds.any_of P Args).
Proof. repeat split. Qed.

(** ** Instantiation *)
Import Instantiation.

(** C4 does not hold for the constructor: for a container type with no
    [emplace_back], constructing the adapter is well-formed. *)
Lemma constructor_compiles_without_emplace_back :
  has_emplace_back no_emplace_back = false
  ∧ instantiate_constructor no_emplace_back = well_formed.
Proof. split; reflexivity. Qed.

Lemma instantiate_assign_ill_formed {Ty} (C : @container_type Ty) Types :
  has_emplace_back C = false ∨ is_constructible C Types = false →
  instantiate_assign C Types = ill_formed.
Proof.
  unfold instantiate_assign. intros [-> | ->]; [done|].
  by destruct (has_emplace_back C).
Qed.

(** The converse does not hold: [std::vector<ProgressBar>] has an
    [emplace_back] and its element can be constructed from the bundle,
    and still the assignment does not compile. *)
Example vector_of_ProgressBar_is_rejected :
  has_emplace_back vector_of_ProgressBar = true
  ∧ is_constructible vector_of_ProgressBar [streambuf_pointer; std_string]
    = true
  ∧ instantiate_assign vector_of_ProgressBar [streambuf_pointer; std_string]
    = ill_formed.
Proof. repeat split. Qed.

Lemma ProgressBar_ctor_accepts_what_compiles a_buffer a_prefix v_buffer v_prefix
    (m : memory value) :
  objects m !! ar_loc a_buffer = Some v_buffer →
  objects m !! ar_loc a_prefix = Some v_prefix →
  instantiate_assign deque_of_ProgressBar [type_of v_buffer; type_of v_prefix]
    = well_formed →
  ∃ x m', ProgressBar_ctor [a_buffer; a_prefix] m = constructed x m'.
Proof.
  intros Hb Hp Hwf. unfold ProgressBar_ctor, copy_or_move.
  destruct v_buffer, v_prefix; try discriminate Hwf.
  rewrite Hb. simpl. rewrite Hp. destruct (is_rvalue _); eauto.
Qed.

(** An assignment throws only what the constructor of the element
    throws. *)
Lemma thrown_by_constructor {Val Elem Err}
    (construct : list arg_ref → memory Val → construction Val Elem Err)
    this c tc t elems e (s s' : state Val Elem) :
  bound_to this c s →
  containers s !! c = Some elems →
  op_assign construct this tc t s = Thrown e s' →
  ∃ m', construct (ctor_args tc t) (mem s) = raised e m'.
Proof.
  intros Hthis Hc. rewrite (op_assign_outcome construct this c tc t elems s Hthis Hc).
  destruct (construct _ _) as [x m'|e' m'|]; simpl; try done.
  intros [= -> _]. by exists m'.
Qed.

(** C4, amended.  Constructing a [back_emplace_iterator], dereferencing
    and incrementing it are well-formed for every container type, also
    one with no [emplace_back].  The assignment is ill-formed, at compile
    time, whenever the container type has no [emplace_back] or the types
    of the bundle cannot construct its element type.  Neither is a
    run-time condition: the constructor of the adapter always returns, an
    assignment throws only what the constructor of the element throws,
    and [ProgressBar]'s constructor accepts every pair of arguments whose
    types compile. *)
Theorem constraints_are_checked_at_assignment :
  (∀ (Ty : Type) (C : @container_type Ty),
     instantiate_constructor C = well_formed ∧ instantiate_noop C = well_formed)
  ∧ (∀ (Ty : Type) (C : @container_type Ty) (Types : list Ty),
       has_emplace_back C = false ∨ is_constructible C Types = false →
       instantiate_assign C Types = ill_formed)
  ∧ (∀ (Val Elem Err : Type) this c (s : state Val Elem),
       ∃ s', back_emplace_iterator_ctor (Err := Err) this c s = Returned tt s')
  ∧ (∀ (Val Elem Err : Type)
       (construct : list arg_ref → memory Val → construction Val Elem Err)
       this c tc t elems e (s s' : state Val Elem),
       bound_to this c s →
       containers s !! c = Some elems →
       op_assign construct this tc t s = Thrown e s' →
       ∃ m', construct (ctor_args tc t) (mem s) = raised e m')
  ∧ (∀ a_buffer a_prefix v_buffer v_prefix (m : pb_memory),
       objects m !! ar_loc a_buffer = Some v_buffer →
       objects m !! ar_loc a_prefix = Some v_prefix →
       instantiate_assign deque_of_ProgressBar
         [type_of v_buffer; type_of v_prefix] = well_formed →
       ∃ x m', ProgressBar_ctor [a_buffer; a_prefix] m = constructed x m').
Proof.
  split; [done|]. split; [intros; by apply instantiate_assign_ill_formed|].
  split; [by eexists|]. split; [intros; by eapply thrown_by_constructor|].
  intros. by eapply ProgressBar_ctor_accepts_what_compiles.
Qed.

Lemma constraints_are_checked_at_assignment_witness :
  instantiate_assign no_emplace_back [streambuf_pointer; std_string] = ill_formed
  ∧ instantiate_assign deque_of_ProgressBar [std_string] = ill_formed
  ∧ instantiate_assign deque_of_ProgressBar [streambuf_pointer; std_string]
    = well_formed.
Proof.
  destruct constraints_are_checked_at_assignment as (_ & Hassign & _).
  split; [|split].
  - apply Hassign. left. reflexivity.
  - apply Hassign. right. reflexivity.
  - reflexivity.
Defined.

(** ** The adapter on [ProgressBar]: instances

    The general statements above, applied in [sample_state]. *)

Lemma transform_emplaces_in_order_witness :
  ∃ s',
    std_transform ProgressBar_ctor task_to_bundle [3%positive; 4%positive]
      (back_emplacer 1) sample_state
    = Returned (back_emplacer 1) s'
    ∧ containers s' !! 1%positive = Some [bar_of "task0"; bar_of "task1"].
Proof.
  destruct (transform_emplaces_in_order ProgressBar_ctor task_to_bundle
              [3%positive; 4%positive] 1%positive []
              [bar_of "task0"; bar_of "task1"]
              (Memory (objects (mem sample_state)) 2 4) sample_state)
    as (s' & Hs' & Hbars & _).
  - reflexivity.
  - vm_compute. reflexivity.
  - exists s'. split; assumption.
Defined.

Lemma assign_emplaces_one_witness :
  ∃ s',
    op_assign ProgressBar_ctor 1 prvalue owning_bundle sample_state
    = Returned 1%positive s'
    ∧ containers s' = <[1%positive := [bar_of "task0"]]> (containers sample_state)
    ∧ ctor_calls s' = 1.
Proof.
  destruct (assign_emplaces_one ProgressBar_ctor 1%positive 1%positive prvalue
              owning_bundle [] (bar_of "task0")
              (Memory (<[3%positive := VString ""]> (objects (mem sample_state)))
                      0 2) sample_state)
    as (_ & _ & s' & Hs' & Hbars & _ & Hcalls & _).
  - reflexivity.
  - reflexivity.
  - vm_compute. reflexivity.
  - exists s'. repeat split; assumption.
Defined.

Lemma assign_failure_leaves_container_witness :
  ∃ s',
    op_assign throwing_ctor 1 prvalue owning_bundle sample_state
    = Thrown "invalid argument" s'
    ∧ length <$> containers s' !! 1%positive = Some 0.
Proof.
  destruct (assign_failure_leaves_container throwing_ctor 1%positive 1%positive
              prvalue owning_bundle [] "invalid argument"
              (mem sample_state) sample_state)
    as (s' & Hs' & _ & Hlen & _); try reflexivity.
  exists s'. split; assumption.
Defined.

Lemma deref_and_increments_are_noops_witness :
  run_noops (Err := Empty_set) 1
    [call_deref; call_preinc; call_postinc; call_deref] sample_state
  = Returned [reference_to 1; reference_to 1;
              copy_of (BackEmplaceIterator 1); reference_to 1] sample_state.
Proof.
  apply (deref_and_increments_are_noops (Err := Empty_set) 1%positive
           (BackEmplaceIterator 1)
           [call_deref; call_preinc; call_postinc; call_deref] sample_state).
  reflexivity.
Defined.

Lemma adapter_keeps_its_one_reference_witness :
  ∃ s',
    final_state
      (bind (back_emplace_iterator_ctor 2 1 sample_state)
            (λ _ s, run_calls ProgressBar_ctor 2
                      [call_noop call_deref; call_assign prvalue owning_bundle;
                       call_noop call_preinc; call_noop call_postinc] s))
    = Some s'
    ∧ adapters s' !! 2%positive = Some (BackEmplaceIterator 1)
    ∧ dom (containers s') = dom (containers sample_state).
Proof.
  destruct (final_state
      (bind (back_emplace_iterator_ctor 2 1 sample_state)
            (λ _ s, run_calls ProgressBar_ctor 2
                      [call_noop call_deref; call_assign prvalue owning_bundle;
                       call_noop call_preinc; call_noop call_postinc] s)))
    as [s'|] eqn:Hrun; [|vm_compute in Hrun; discriminate].
  exists s'. split; [reflexivity|].
  destruct (proj2 (adapter_keeps_its_one_reference ProgressBar_ctor 2%positive
                     1%positive _ sample_state) s' Hrun) as (Hbound & Hdom & _).
  split; assumption.
Defined.

(** * More properties *)

(** ** The adapter, for any element type *)

Section MoreAdapterFacts.

Context {Val Elem Err : Type}.
Variable construct : list arg_ref → memory Val → construction Val Elem Err.

(** The loop of [std::transform] up to an input whose element cannot be
    constructed. *)
Lemma transform_loop_fails {A} unary_op (xs1 : list A) x xs2 d c elems es1 m1
    tc t m2 e m3 (s : state Val Elem) :
  bound_to d c s →
  containers s !! c = Some elems →
  elements_in_order construct unary_op xs1 (mem s) = Some (es1, m1) →
  unary_op x m1 = Some (tc, t, m2) →
  construct (ctor_args tc t) m2 = raised e m3 →
  transform_loop construct unary_op (xs1 ++ x :: xs2) d s
  = Thrown e (State (<[c := elems ++ es1]> (containers s)) (adapters s)
                    (release tc t m3) (S (length xs1) + ctor_calls s)).
Proof.
  revert s elems es1.
  induction xs1 as [|y xs1 IH]; intros s elems es1 Hd Hc; simpl.
  - intros [= <- <-] Hop Hctor. rewrite Hop.
    rewrite (op_assign_outcome construct d c tc t elems) by done.
    simpl. rewrite Hctor. simpl.
    rewrite app_nil_r, insert_id by done. done.
  - destruct (unary_op y (mem s)) as [[[tc' t'] m1']|]; [|done].
    destruct (construct (ctor_args tc' t') m1') as [e' m2'| |] eqn:Hctor';
      try done.
    destruct (elements_in_order _ _ _ _) as [[es' m'']|] eqn:Hrest; [|done].
    intros [= <- <-] Hop Hctor.
    rewrite (op_assign_outcome construct d c tc' t' elems) by done.
    simpl. rewrite Hctor'. simpl.
    erewrite IH;
      [| done | simpl; apply lookup_insert_eq | simpl; done | done | done].
    simpl. f_equal. f_equal; [|lia].
    by rewrite insert_insert_eq, <-app_assoc.
Qed.

(** X1.  [std::transform] into the adapter stops at the first input whose
    element cannot be constructed: the exception leaves the algorithm, the
    elements built before it stay in the container, in order, nothing is
    built from the later inputs, the failed bundle is released and the
    adapter objects are as before. *)
Theorem transform_stops_at_the_first_failure {A} unary_op (xs1 : list A) x xs2
    c elems es1 m1 tc t m2 e m3 (s : state Val Elem) :
  containers s !! c = Some elems →
  elements_in_order construct unary_op xs1 (mem s) = Some (es1, m1) →
  unary_op x m1 = Some (tc, t, m2) →
  construct (ctor_args tc t) m2 = raised e m3 →
  ∃ s',
    std_transform construct unary_op (xs1 ++ x :: xs2) (back_emplacer c) s
    = Thrown e s'
    ∧ containers s' !! c = Some (elems ++ es1)
    ∧ (∀ c', c' ≠ c → containers s' !! c' = containers s !! c')
    ∧ adapters s' = adapters s
    ∧ mem s' = release tc t m3
    ∧ ctor_calls s' = S (length xs1) + ctor_calls s.
Proof.
  intros Hc Hes Hop Hctor. unfold std_transform.
  erewrite transform_loop_fails;
    [| apply lookup_insert_eq | exact Hc | exact Hes | exact Hop | exact Hctor ].
  eexists. split; [done|]. simpl. rewrite lookup_insert_eq.
  repeat split; try done.
  - intros c' Hne. by rewrite lookup_insert_ne.
  - apply delete_insert_id, fresh_lookup.
Qed.

(** X2.  The copy that a post-increment returns refers to the same
    container as the adapter it was made from: an assignment through the
    copy, stored at [b], and then one through the original, at [a], append
    to the one container, in the order of the calls. *)
Theorem copies_share_the_container a b c tc1 t1 tc2 t2 elems x1 m1 x2 m2
    (s : state Val Elem) :
  bound_to a c s →
  containers s !! c = Some elems →
  construct (ctor_args tc1 t1) (mem s) = constructed x1 m1 →
  construct (ctor_args tc2 t2) m1 = constructed x2 m2 →
  bind (op_postinc a s) (λ copy s0,
    bind (op_assign construct b tc1 t1 (set_adapters <[b := copy]> s0))
         (λ _ s1, op_assign construct a tc2 t2 s1))
  = Returned a
      (State (<[c := elems ++ [x1; x2]]> (containers s))
             (<[b := BackEmplaceIterator c]> (adapters s)) m2
             (2 + ctor_calls s)).
Proof.
  intros Ha Hc H1 H2. unfold op_postinc. rewrite Ha. cbn [bind].
  rewrite (op_assign_outcome construct b c tc1 t1 elems);
    [| apply lookup_insert_eq | done].
  cbn [mem set_adapters]. rewrite H1. cbn [emplace_outcome bind].
  rewrite (op_assign_outcome construct a c tc2 t2 (elems ++ [x1]));
    [| | simpl; apply lookup_insert_eq].
  - simpl. rewrite H2. simpl. unfold set_containers, count_ctor_call. simpl.
    by rewrite insert_insert_eq, <-app_assoc.
  - unfold bound_to. simpl. destruct (decide (b = a)) as [->|Hne].
    + apply lookup_insert_eq.
    + by rewrite lookup_insert_ne.
Qed.

End MoreAdapterFacts.

(** ** [ProgressBar] and the drivers *)

Lemma append_assoc (a b c : string) : (a +:+ b) +:+ c = a +:+ (b +:+ c).
Proof.
  induction a as [|x a IH]; [done|].
  change (String x ((a +:+ b) +:+ c) = String x (a +:+ (b +:+ c))).
  by rewrite IH.
Qed.

Lemma append_empty_r (a : string) : a +:+ "" = a.
Proof.
  induction a as [|x a IH]; [done|].
  change (String x (a +:+ "") = String x a). by rewrite IH.
Qed.

Lemma write_progress_line data bar w (m : pb_memory) :
  objects m !! m_out bar = Some (VStreambuf w) →
  write_progress data bar m
  = Some (alloc (m_out bar) (VStreambuf (w +:+ progress_line data bar)) m).
Proof. intros Hw. unfold write_progress. by rewrite Hw. Qed.

Lemma log_each_writes bars b w (m : pb_memory) :
  Forall (λ bar, m_out bar = b) bars →
  objects m !! b = Some (VStreambuf w) →
  log_each bars m
  = Some (map tick bars, alloc b (VStreambuf (w +:+ log_output bars)) m).
Proof.
  intros Hall. revert w m.
  induction Hall as [|bar bars Hbar Hall IH]; intros w m Hw.
  - simpl. rewrite append_empty_r. unfold alloc. rewrite insert_id by done.
    by destruct m.
  - cbn [log_each log_output foldr].
    rewrite (write_progress_line "step" (tick bar) w) by (by simpl; rewrite Hbar).
    simpl m_out. rewrite Hbar.
    rewrite (IH (w +:+ progress_line "step" (tick bar)));
      [|simpl; apply lookup_insert_eq].
    unfold alloc. simpl. by rewrite insert_insert_eq, append_assoc.
Qed.

(** X4.  [log_progress] on bars that write to one live stream buffer: each
    bar keeps its stream and its prefix and has its progress raised by 10,
    their number is unchanged, and the buffer receives one line per bar,
    in order, with the progress after the tick; nothing else changes.  The
    bound on the progress is the range in which a [double] is printed as
    the integer it holds. *)
Theorem log_progress_ticks_and_prints bars b w elems (s : pb_state) :
  containers s !! bars = Some elems →
  Forall (λ bar, m_out bar = b ∧ (0 ≤ m_progress bar < 999990)%Z) elems →
  objects (mem s) !! b = Some (VStreambuf w) →
  log_progress bars s
  = Returned tt
      (State (<[bars := map tick elems]> (containers s)) (adapters s)
             (alloc b (VStreambuf (w +:+ log_output elems)) (mem s))
             (ctor_calls s))
  ∧ length (map tick elems) = length elems
  ∧ Forall2 (λ bar bar', m_out bar' = m_out bar ∧ m_prefix bar' = m_prefix bar
                         ∧ m_progress bar' = (m_progress bar + 10)%Z)
            elems (map tick elems).
Proof.
  intros Hbars Hall Hw. split; [|split].
  - unfold log_progress. rewrite Hbars.
    rewrite (log_each_writes elems b w); [done | | done].
    eapply Forall_impl; [exact Hall|]. by intros bar [? _].
  - apply length_map.
  - apply Forall2_fmap_r, Forall2_same_length_lookup. split; [done|].
    by intros i bar bar' Hi [= <-]%(eq_trans (eq_sym Hi)).
Qed.

(** X3.  A bundle passed by name can be assigned any number of times: each
    assignment appends an equal [ProgressBar], copies the string once, and
    leaves the objects of the bundle as they were. *)
Theorem named_bundle_can_be_assigned_again k this c E_buffer E_prefix l_buffer
    l_prefix buffer prefix elems (s : pb_state) :
  bound_to this c s →
  containers s !! c = Some elems →
  objects (mem s) !! l_buffer = Some (VPointer buffer) →
  objects (mem s) !! l_prefix = Some (VString prefix) →
  run_calls ProgressBar_ctor this
    (replicate k (call_assign lvalue
                    [TupleElement E_buffer l_buffer;
                     TupleElement E_prefix l_prefix])) s
  = Returned (replicate k (reference_to this))
      (State (<[c := elems ++ replicate k (MkProgressBar buffer prefix 0)]>
                (containers s))
             (adapters s)
             (Memory (objects (mem s)) (k + copies (mem s)) (k + moves (mem s)))
             (k + ctor_calls s)).
Proof.
  revert elems s. induction k as [|k IH]; intros elems s Hthis Hc Hb Hp.
  - simpl. rewrite app_nil_r, insert_id by done. by destruct s as [? ? [] ?].
  - cbn [replicate run_calls run_call].
    rewrite (ProgressBar_from_bundle this c lvalue E_buffer E_prefix l_buffer
               l_prefix buffer prefix elems s) by done.
    cbn [supplied_category is_rvalue bind].
    rewrite (IH (elems ++ [MkProgressBar buffer prefix 0]));
      [| done | simpl; apply lookup_insert_eq | done | done].
    cbn [bind containers adapters mem objects copies moves ctor_calls].
    rewrite insert_insert_eq, <-app_assoc. simpl.
    do 2 f_equal; [f_equal|]; lia.
Qed.

(** Destroying the vector undoes its allocation. *)
Lemma alloc_vector_undo strs (m : pb_memory) tasks m' :
  alloc_vector strs m = (tasks, m') →
  (∀ l, l ∈ tasks → objects m !! l = None)
  ∧ foldr delete (objects m') tasks = objects m.
Proof.
  revert m tasks m'. induction strs as [|str strs IH]; intros m tasks m'.
  - intros [= <- <-]. split; [|done]. intros l Hl. by apply elem_of_nil in Hl.
  - cbn [alloc_vector]. set (l := fresh (dom (objects m))).
    destruct (alloc_vector strs (alloc l (VString str) m)) as [ls m1] eqn:Hrec.
    intros [= <- <-]. destruct (IH _ _ _ Hrec) as [Hfresh Hundo].
    assert (objects m !! l = None) as Hl by apply fresh_lookup.
    split.
    + intros l' [->|Hl']%elem_of_cons; [done|].
      specialize (Hfresh l' Hl'). simpl in Hfresh.
      by apply lookup_insert_None in Hfresh as [? _].
    + cbn [foldr]. rewrite Hundo. simpl. by apply delete_insert_id.
Qed.

Lemma foldr_delete_insert {V} (o : gmap loc V) b v tasks :
  b ∉ tasks →
  foldr delete (<[b := v]> o) tasks = <[b := v]> (foldr delete o tasks).
Proof.
  induction tasks as [|l tasks IH]; intros Hb; [done|].
  apply not_elem_of_cons in Hb as [Hne Hb]. simpl.
  rewrite IH by done. by rewrite delete_insert_ne.
Qed.

Lemma log_output_first_lines strs :
  log_output (map bar_of strs) = foldr (λ task rest, first_line task +:+ rest) "" strs.
Proof.
  induction strs as [|str strs IH]; [done|].
  cbn [map log_output foldr]. fold (log_output (map bar_of strs)).
  rewrite IH. f_equal.
Qed.

Lemma finish_prints_and_cleans_up names tasks m' w copies' moves' calls
    (s : pb_state) :
  alloc_vector names (mem s) = (tasks, m') →
  objects (mem s) !! cout_rdbuf = Some (VStreambuf w) →
  finish (fresh (dom (containers s)), tasks)
    (State (<[fresh (dom (containers s)) := map bar_of names]> (containers s))
           (adapters s) (Memory (objects m') copies' moves') calls)
  = Returned tt
      (State (containers s) (adapters s)
             (Memory (<[cout_rdbuf :=
                          VStreambuf
                            (w +:+ foldr (λ task rest, first_line task +:+ rest)
                                         "" names)]>
                        (objects (mem s)))
                     copies' moves')
             calls).
Proof.
  intros Halloc Hw.
  destruct (alloc_vector_spec names (mem s))
    as (tasks' & m'' & Heq & _ & _ & _ & Hkeep).
  rewrite Halloc in Heq. injection Heq as <- <-.
  destruct (alloc_vector_undo _ _ _ _ Halloc) as [Hfresh Hundo].
  unfold finish, log_progress. cbn [containers mem].
  rewrite lookup_insert_eq.
  rewrite (log_each_writes (map bar_of names) cout_rdbuf w);
    [| by apply Forall_map, Forall_true | simpl; by apply Hkeep].
  cbn [bind]. unfold set_mem, set_containers, alloc. simpl.
  rewrite insert_insert_eq, delete_insert_id by apply fresh_lookup.
  rewrite foldr_delete_insert, Hundo, log_output_first_lines; [done|].
  intros Hin. apply Hfresh in Hin. congruence.
Qed.

(** X5.  For a number of tasks [n] for which [get_tasks(n)] returns
    ([tasks.reserve(n)] succeeds and [n] does not exceed [INT_MAX]), and
    from any state in which the buffer of [std::cout] is alive, both
    drivers return, print one line ["<task>[10] step"] per task, in order,
    and leave nothing behind: the containers, the adapter objects and all
    other objects are as before.  The loop makes [n] string moves, the
    algorithm [2 * n]; both make [n] copies. *)
Theorem drivers_print_one_line_per_task impl n w (s : pb_state) :
  reserve impl n = None →
  (Z.of_N n ≤ INT_MAX)%Z →
  objects (mem s) !! cout_rdbuf = Some (VStreambuf w) →
  let printed :=
    <[cout_rdbuf :=
        VStreambuf (w +:+ foldr (λ task rest, first_line task +:+ rest)
                                "" (task_names (N.to_nat n)))]>
      (objects (mem s)) in
  do_tasks_for_loop impl n s
  = Returned tt
      (State (containers s) (adapters s)
             (Memory printed (N.to_nat n + copies (mem s))
                     (N.to_nat n + moves (mem s)))
             (N.to_nat n + ctor_calls s))
  ∧ do_tasks_algorithm impl n s
  = Returned tt
      (State (containers s) (adapters s)
             (Memory printed (N.to_nat n + copies (mem s))
                     (2 * N.to_nat n + moves (mem s)))
             (N.to_nat n + ctor_calls s)).
Proof.
  intros Hreserve Hn Hw printed.
  pose proof (get_tasks_returns impl n Hreserve Hn) as Hnames.
  destruct (alloc_vector (task_names (N.to_nat n)) (mem s))
    as [tasks m'] eqn:Halloc.
  destruct (with_locals_fills _ _ _ s Halloc) as [Hloop Halg].
  unfold do_tasks_for_loop, do_tasks_algorithm, after_get_tasks.
  rewrite Hnames, Hloop, Halg. cbn [bind].
  rewrite !(finish_prints_and_cleans_up _ tasks m' w) by done.
  by rewrite task_names_length.
Qed.


(** ** More on [get_tasks] *)

(** X7.  Asking for more tasks only adds names at the end: when
    [get_tasks(n)] and [get_tasks(n + k)] both return, the first is the
    first [n] names of the second. *)
Theorem get_tasks_is_a_prefix impl n k tasks1 tasks2 :
  get_tasks impl n = tasks_returned tasks1 →
  get_tasks impl (n + k) = tasks_returned tasks2 →
  tasks1 = take (N.to_nat n) tasks2.
Proof.
  intros (_ & _ & ->)%get_tasks_returned (_ & _ & ->)%get_tasks_returned.
  apply list_eq. intros i. destruct (decide (i < N.to_nat n)) as [Hi|Hi].
  - rewrite lookup_take_lt by done.
    by rewrite !task_names_lookup by lia.
  - rewrite lookup_take_ge by lia.
    apply lookup_ge_None. rewrite task_names_length. lia.
Qed.

(** X8.  The names that [get_tasks] returns are pairwise distinct. *)
Theorem get_tasks_names_are_distinct impl n tasks :
  get_tasks impl n = tasks_returned tasks → NoDup tasks.
Proof.
  intros (_ & _ & ->)%get_tasks_returned.
  apply NoDup_alt. intros i j name Hi Hj.
  assert (i < N.to_nat n) as Hi'
    by (apply lookup_lt_Some in Hi; by rewrite task_names_length in Hi).
  assert (j < N.to_nat n) as Hj'
    by (apply lookup_lt_Some in Hj; by rewrite task_names_length in Hj).
  rewrite task_names_lookup in Hi, Hj by done.
  rewrite <-Hj in Hi. injection Hi as Hi.
  change (to_string (Z.of_nat i) = to_string (Z.of_nat j)) in Hi.
  unfold to_string in Hi. apply (inj pretty) in Hi. lia.
Qed.

(** ** More on the fold helpers *)

(** X9.  [all_of] is [true] exactly when the predicate holds of every type
    of the pack. *)
Theorem all_of_holds_of_every_type {Ty} (P : Ty → bool) (Args : list Ty) :
  Folds.all_of P Args = true ↔ ∀ T, T ∈ Args → P T = true.
Proof.
  rewrite all_of_forallb, forallb_forall.
  by setoid_rewrite list_elem_of_In.
Qed.

(** X10.  [any_of] is [true] exactly when the predicate holds of some type
    of the pack. *)
Theorem any_of_holds_of_some_type {Ty} (P : Ty → bool) (Args : list Ty) :
  Folds.any_of P Args = true ↔ ∃ T, T ∈ Args ∧ P T = true.
Proof.
  rewrite any_of_existsb, existsb_exists.
  by setoid_rewrite list_elem_of_In.
Qed.

(** X11.  [none_of] is [all_of] of the negated predicate: it is [true]
    exactly when the predicate holds of no type of the pack. *)
Theorem none_of_is_all_of_the_negation {Ty} (P : Ty → bool) (Args : list Ty) :
  Folds.none_of P Args = Folds.all_of (λ T, negb (P T)) Args
  ∧ (Folds.none_of P Args = true ↔ ∀ T, T ∈ Args → P T = false).
Proof.
  rewrite none_of_forallb, all_of_forallb. split; [done|].
  rewrite forallb_forall. setoid_rewrite list_elem_of_In.
  by setoid_rewrite negb_true_iff.
Qed.

Lemma filter_le {A} (P : A → bool) (l : list A) :
  length (List.filter P l) ≤ length l.
Proof.
  induction l as [|x l IH]; simpl; [done|]. destruct (P x); simpl; lia.
Qed.

Lemma count_if_fold {Ty} (P : Ty → bool) (Args : list Ty) acc :
  fold_left (λ acc U, acc + Nat.b2n (P U)) Args acc
  = acc + length (List.filter P Args).
Proof.
  revert acc. induction Args as [|T Args IH]; intros acc; simpl; [lia|].
  rewrite IH. destruct (P T); simpl; lia.
Qed.

Lemma count_if_nonempty {Ty} (P : Ty → bool) (Args : list Ty) :
  Args ≠ [] → Folds.count_if P Args = Some (length (List.filter P Args)).
Proof.
  destruct Args as [|T Args]; [done|]. intros _. simpl.
  rewrite count_if_fold. by destruct (P T).
Qed.

(** X12.  [count_if] has no value for the empty pack; for any other pack
    it is the number of types of which the predicate holds, at most
    [count]. *)
Theorem count_if_counts {Ty} (P : Ty → bool) (Args : list Ty) :
  Folds.count_if P [] = None
  ∧ (Args ≠ [] →
     Folds.count_if P Args = Some (length (List.filter P Args))
     ∧ length (List.filter P Args) ≤ Folds.count Args).
Proof.
  split; [done|]. intros HArgs. split; [by apply count_if_nonempty|].
  apply filter_le.
Qed.

Lemma count_if_counts_witness :
  Folds.count_if Folds.is_signed_type
    [Folds.t_int; Folds.t_unsigned_int; Folds.t_double] = Some 2.
Proof.
  apply (proj2 (count_if_counts Folds.is_signed_type
                  [Folds.t_int; Folds.t_unsigned_int; Folds.t_double])).
  discriminate.
Defined.

Lemma filter_all {A} (P : A → bool) (l : list A) :
  length (List.filter P l) = length l ↔ forallb P l = true.
Proof.
  induction l as [|x l IH]; simpl; [done|].
  pose proof (filter_le P l).
  destruct (P x); simpl; [rewrite <-IH; lia|]. split; [lia|done].
Qed.

Lemma filter_none {A} (P : A → bool) (l : list A) :
  length (List.filter P l) = 0 ↔ existsb P l = false.
Proof.
  induction l as [|x l IH]; simpl; [done|].
  destruct (P x); simpl; [done|]. done.
Qed.

(** X13.  On a pack that is not empty: [all_of] holds exactly when
    [count_if] equals [count], [any_of] exactly when [count_if] is
    positive, [none_of] exactly when it is zero. *)
Theorem count_if_agrees_with_the_folds {Ty} (P : Ty → bool) (Args : list Ty) :
  Args ≠ [] →
  (Folds.all_of P Args = true ↔ Folds.count_if P Args = Some (Folds.count Args))
  ∧ (Folds.any_of P Args = true ↔ ∃ n, Folds.count_if P Args = Some (S n))
  ∧ (Folds.none_of P Args = true ↔ Folds.count_if P Args = Some 0).
Proof.
  intros HArgs. rewrite count_if_nonempty by done.
  unfold Folds.none_of, Folds.count.
  rewrite all_of_forallb, any_of_existsb, <-filter_all.
  pose proof (filter_none P Args) as Hnone.
  repeat split.
  - by intros ->.
  - by intros [= ->].
  - intros Hex. destruct (length (List.filter P Args)) as [|n]; [|by eexists].
    rewrite (proj1 Hnone eq_refl) in Hex. done.
  - intros [n [= Hn]]. destruct (existsb P Args); [done|].
    rewrite (proj2 Hnone eq_refl) in Hn. done.
  - intros Hex. apply negb_true_iff in Hex. f_equal. by apply Hnone.
  - intros [= Hn]. apply negb_true_iff. by apply Hnone.
Qed.

Lemma count_if_agrees_with_the_folds_witness :
  Folds.none_of Folds.is_signed_type [Folds.t_unsigned_int; Folds.t_size_t] = true
  ↔ Folds.count_if Folds.is_signed_type [Folds.t_unsigned_int; Folds.t_size_t]
    = Some 0.
Proof.
  apply (count_if_agrees_with_the_folds Folds.is_signed_type
           [Folds.t_unsigned_int; Folds.t_size_t]).
  discriminate.
Defined.

(** ** Traversals *)
Import Instantiation.

Lemma index_traversal {Ty A} (f : Ty → A) (Tuple : list Ty) :
  mapM (λ I, f <$> Traversals.tuple_element I Tuple)
       (Traversals.make_index_sequence (Traversals.tuple_size Tuple))
  = Some (map f Tuple).
Proof.
  apply mapM_Some.
  unfold Traversals.make_index_sequence, Traversals.tuple_size,
    Traversals.tuple_element.
  apply Forall2_same_length_lookup. split.
  - by rewrite length_seq, length_map.
  - intros i I y Hi Hy. apply lookup_seq in Hi as [-> Hlt].
    simpl. rewrite list_lookup_fmap in Hy. done.
Qed.

(** X14.  The three traversals visit the same types: going through the
    index sequence never leaves the tuple and value-initialises [Func<T>]
    once for each element type, in the order of the tuple, as [for_each]
    and [for_each_tuple_type_arg] do for the pack. *)
Theorem traversals_visit_the_same_types {Ty} (Tuple : list Ty) :
  Traversals.for_each_tuple_type Tuple = Some (Traversals.for_each Tuple)
  ∧ Traversals.for_each_tuple_type_arg Tuple = Traversals.for_each Tuple
  ∧ Traversals.for_each Tuple = map Traversals.value_construct Tuple.
Proof.
  unfold Traversals.for_each_tuple_type, Traversals.for_each.
  rewrite index_traversal. repeat split.
  unfold Traversals.comma_fold. induction Tuple as [|T Tuple IH]; [done|].
  simpl. by rewrite IH.
Qed.

Lemma for_each_value_constructs {Ty} (Args : list Ty) :
  Traversals.for_each Args = map Traversals.value_construct Args.
Proof.
  unfold Traversals.for_each, Traversals.comma_fold.
  induction Args as [|T Args IH]; [done|]. simpl. by rewrite IH.
Qed.

(** X15.  With [assert_arithmetic], the three traversals of the code
    sample compile for every pack, whether its types are arithmetic or
    not: they only value-initialise [assert_arithmetic<T>] and never call
    it. *)
Theorem for_each_never_asserts {Ty} (is_arithmetic : Ty → bool)
    (Args : list Ty) :
  Traversals.compiles (Traversals.assert_arithmetic is_arithmetic)
    (Traversals.for_each Args) = well_formed
  ∧ Traversals.compiles (Traversals.assert_arithmetic is_arithmetic)
      (Traversals.for_each_tuple_type_arg Args) = well_formed
  ∧ (Traversals.compiles (Traversals.assert_arithmetic is_arithmetic)
       <$> Traversals.for_each_tuple_type Args) = Some well_formed
  ∧ (∀ T, Traversals.invoke T ∉ Traversals.for_each Args)
  ∧ (∀ T, Traversals.invoke T ∉ Traversals.for_each_tuple_type_arg Args).
Proof.
  assert (Traversals.compiles (Traversals.assert_arithmetic is_arithmetic)
            (Traversals.for_each Args) = well_formed) as Hfor.
  { unfold Traversals.for_each, Traversals.comma_fold.
    induction Args as [|T Args IH]; [done|]. simpl. exact IH. }
  assert (∀ T, Traversals.invoke T ∉ Traversals.for_each Args) as Hcall.
  { intros T. rewrite for_each_value_constructs.
    change (map ?f ?l) with (f <$> l).
    by intros (T' & [=] & _)%list_elem_of_fmap. }
  split; [done|]. split; [done|]. split; [|done].
  unfold Traversals.for_each_tuple_type. rewrite index_traversal. simpl.
  by rewrite <-Hfor.
Qed.

(** ** Forwarding a function object *)

(** X16.  The wrapper that calls [function()] always takes the lvalue
    overload and leaves the function object as it was, also when it was
    given an rvalue.  The wrapper that forwards takes the rvalue overload
    exactly when it was given an rvalue, and then the stream of the object
    is left without characters.  Both return the same string. *)
Theorem forwarding_selects_the_overload tc (fn : FunctionObjects.function_object) :
  let plain := FunctionObjects.wrapper_without_forward tc fn in
  let forwarded := FunctionObjects.wrapper tc fn in
  FunctionObjects.chosen plain = FunctionObjects.const_lvalue_overload
  ∧ FunctionObjects.object_after plain = fn
  ∧ FunctionObjects.returned plain = FunctionObjects.value fn
  ∧ FunctionObjects.returned forwarded = FunctionObjects.value fn
  ∧ (FunctionObjects.chosen forwarded = FunctionObjects.rvalue_overload
     ↔ is_rvalue tc = true)
  ∧ (FunctionObjects.object_after forwarded
     = if is_rvalue tc then FunctionObjects.FunctionObject "" else fn).
Proof. destruct tc; simpl; repeat split; done. Qed.

(** ** More instances *)

(** What [main] prints. *)
Example main_prints_ten_lines :
  (λ s, objects (mem s) !! cout_rdbuf)
    <$> final_state (main sample_implementation initial_state)
  = Some (Some (VStreambuf
      (foldr (λ task rest, first_line task +:+ rest) ""
             (task_names 5 ++ task_names 5)))).
Proof. vm_compute. reflexivity. Qed.


Lemma transform_stops_at_the_first_failure_witness :
  ∃ s',
    std_transform validating_ctor task_to_bundle
      [3%positive; 5%positive; 4%positive] (back_emplacer 1)
      sample_state_with_empty
    = Thrown "invalid argument" s'
    ∧ containers s' !! 1%positive = Some [bar_of "task0"]
    ∧ ctor_calls s' = 2.
Proof.
  pose (o := objects (mem sample_state_with_empty)).
  pose (o' := <[8%positive := VString ""]>
                (<[7%positive := VPointer cout_rdbuf]> o)).
  destruct (transform_stops_at_the_first_failure validating_ctor task_to_bundle
              [3%positive] 5%positive [4%positive] 1%positive []
              [bar_of "task0"] (Memory o 1 2) prvalue
              [TupleElement non_ref 7; TupleElement non_ref 8]
              (Memory o' 2 2) "invalid argument" (Memory o' 2 4)
              sample_state_with_empty)
    as (s' & Hs' & Hbars & _ & _ & _ & Hcalls).
  - reflexivity.
  - vm_compute. reflexivity.
  - vm_compute. reflexivity.
  - vm_compute. reflexivity.
  - exists s'. repeat split; assumption.
Defined.

Lemma copies_share_the_container_witness :
  bind (op_postinc 1 sample_state) (λ copy s0,
    bind (op_assign ProgressBar_ctor 2 prvalue owning_bundle
            (set_adapters <[2%positive := copy]> s0))
         (λ _ s1, op_assign ProgressBar_ctor 1 lvalue
                    [TupleElement lvalue_ref 2; TupleElement lvalue_ref 4] s1))
  = Returned 1%positive
      (State (<[1%positive := [bar_of "task0"; bar_of "task1"]]>
                (containers sample_state))
             (<[2%positive := BackEmplaceIterator 1]> (adapters sample_state))
             (Memory (<[3%positive := VString ""]> (objects (mem sample_state)))
                     1 3)
             2).
Proof.
  apply (copies_share_the_container ProgressBar_ctor 1%positive 2%positive
           1%positive prvalue owning_bundle lvalue
           [TupleElement lvalue_ref 2; TupleElement lvalue_ref 4] []
           (bar_of "task0")
           (Memory (<[3%positive := VString ""]> (objects (mem sample_state)))
                   0 2)
           (bar_of "task1")
           (Memory (<[3%positive := VString ""]> (objects (mem sample_state)))
                   1 3)
           sample_state).
  - reflexivity.
  - reflexivity.
  - vm_compute. reflexivity.
  - vm_compute. reflexivity.
Defined.

Lemma named_bundle_can_be_assigned_again_witness :
  run_calls ProgressBar_ctor 1
    (replicate 2 (call_assign lvalue owning_bundle)) sample_state
  = Returned [reference_to 1; reference_to 1]
      (State (<[1%positive := [bar_of "task0"; bar_of "task0"]]>
                (containers sample_state))
             (adapters sample_state)
             (Memory (objects (mem sample_state)) 2 2) 2).
Proof.
  apply (named_bundle_can_be_assigned_again 2 1%positive 1%positive non_ref
           non_ref 2%positive 3%positive cout_rdbuf "task0" [] sample_state);
    reflexivity.
Defined.

Lemma log_progress_ticks_and_prints_witness :
  log_progress 1 sample_bars_state
  = Returned tt
      (State (<[1%positive := [tick (bar_of "task0"); tick (bar_of "task1")]]>
                (containers sample_bars_state))
             (adapters sample_bars_state)
             (alloc cout_rdbuf
                (VStreambuf (first_line "task0" +:+ first_line "task1"))
                (mem sample_bars_state))
             0).
Proof.
  apply (log_progress_ticks_and_prints 1%positive cout_rdbuf ""
           [bar_of "task0"; bar_of "task1"] sample_bars_state).
  - reflexivity.
  - repeat constructor; simpl; lia.
  - reflexivity.
Defined.

Lemma drivers_print_one_line_per_task_witness :
  (λ s, objects (mem s) !! cout_rdbuf)
    <$> final_state (do_tasks_algorithm sample_implementation 2 initial_state)
  = Some (Some (VStreambuf (first_line "task0" +:+ first_line "task1"))).
Proof.
  destruct (drivers_print_one_line_per_task sample_implementation 2 ""
              initial_state) as [_ ->].
  - reflexivity.
  - unfold INT_MAX. simpl. lia.
  - reflexivity.
  - reflexivity.
Defined.


Lemma get_tasks_is_a_prefix_witness :
  ["task0"; "task1"] = take 2 ["task0"; "task1"; "task2"].
Proof.
  apply (get_tasks_is_a_prefix sample_implementation 2 1
           ["task0"; "task1"] ["task0"; "task1"; "task2"]).
  - vm_compute. reflexivity.
  - vm_compute. reflexivity.
Defined.

Lemma get_tasks_names_are_distinct_witness :
  NoDup ["task0"; "task1"; "task2"].
Proof.
  apply (get_tasks_names_are_distinct sample_implementation 3
           ["task0"; "task1"; "task2"]).
  vm_compute. reflexivity.
Defined.
